(** * agenda.capas: the contact book (client validator, JSON store, REST routes)

    A shallow embedding of [src/fronted/Script.js]: the browser-side
    [Validator] and form handler, and the Express backend ([readContacts],
    [writeContacts], [GET /api/contacts], [POST /api/contacts]).

    Conventions of the model.
    - Text (what the user types, the data file, the body of a message) is
      a [string]; each [ascii] stands for the code unit of the same number
      (U+0000..U+00FF).  JSON text can name any code unit by an escape: a
      JavaScript string with a code unit above U+00FF is kept as the list
      of its code units, and is written back with escapes.
    - A JavaScript number is a double, kept by its exact value; literals
      are rounded to the nearest double and written back by the shortest
      digits that denote them.
    - An object is an association list in the order of its own
      properties: array indices first, in ascending order, then the other
      keys in the order of their creation.
    - Effects (the data file, the clock, thrown exceptions) are threaded
      through a small state-and-exception monad.  The limits of the
      engine (stack depth, memory) are not part of the model. *)

From Stdlib Require Import Bool Ascii String List ZArith NArith Lia.
From Stdlib Require Import DecimalString DecimalFacts DecimalPos DecimalZ.
Import ListNotations.

Local Open Scope bool_scope.
Local Open Scope string_scope.

(** ** Characters and text *)

Module Text.

Definition dquote : ascii := "034"%char.
Definition backslash : ascii := "092"%char.
Definition TAB : ascii := "009"%char.
Definition LF : ascii := "010"%char.
Definition FF : ascii := "012"%char.
Definition CR : ascii := "013"%char.
Definition BS : ascii := "008"%char.
Definition SP : ascii := " "%char.
Definition NBSP : ascii := "160"%char.

Definition code (c : ascii) : N := N_of_ascii c.

Definition between (lo hi : N) (c : ascii) : bool :=
  ((lo <=? code c) && (code c <=? hi))%N.

(** [\d]: the ten ASCII digits. *)
Definition is_digit (c : ascii) : bool := between 48 57 c.

(** [\s]: white space and line terminators (those below U+0100). *)
Definition is_space (c : ascii) : bool :=
  between 9 13 c || (c =? SP)%char || (c =? NBSP)%char.

Definition str1 (c : ascii) : string := String c EmptyString.

Fixpoint keep (p : ascii -> bool) (s : string) : string :=
  match s with
  | EmptyString => EmptyString
  | String c r => if p c then String c (keep p r) else keep p r
  end.

Fixpoint all (p : ascii -> bool) (s : string) : bool :=
  match s with
  | EmptyString => true
  | String c r => p c && all p r
  end.

Fixpoint drop_while (p : ascii -> bool) (s : string) : string :=
  match s with
  | EmptyString => EmptyString
  | String c r => if p c then drop_while p r else s
  end.

(** Removes the characters satisfying [p] at the end of [s]. *)
Fixpoint drop_end (p : ascii -> bool) (s : string) : string :=
  match s with
  | EmptyString => EmptyString
  | String c r =>
      match drop_end p r with
      | EmptyString => if p c then EmptyString else str1 c
      | r' => String c r'
      end
  end.

(** [String.prototype.trim]. *)
Definition trim (s : string) : string := drop_end is_space (drop_while is_space s).

(** [s.replace(/\D/g, '')]. *)
Definition strip_non_digits (s : string) : string := keep is_digit s.

(** [s.replace(/\s+/g, ' ')]: every maximal run of white space becomes one
    space.  [in_run] tells that the previous character was white space, so
    the run it belongs to has already been replaced. *)
Fixpoint collapse_from (in_run : bool) (s : string) : string :=
  match s with
  | EmptyString => EmptyString
  | String c r =>
      if is_space c
      then if in_run then collapse_from true r
           else String SP (collapse_from true r)
      else String c (collapse_from false r)
  end.

Definition collapse_spaces (s : string) : string := collapse_from false s.

End Text.

(** ** JavaScript values that travel as JSON *)

(** A number is a double, kept by its exact value: an integer, a fraction
    [m / 2^k] with [m] odd, or an infinity ([JSON.parse] gives one for a
    literal beyond the range of the doubles).  Negative zero is not told
    from zero: both are falsy and both are written [0].  [JSON.parse]
    makes doubles only; a value that is not one stands for the double
    nearest to it. *)
Inductive number :=
  | Whole (n : Z)
  | Dyadic (m : Z) (k : positive)
  | Infinity (negative : bool).

(** A string is a [JStr] when all its code units are below U+0100 and a
    [JWide], the list of its code units, when one of them is not; an
    object is a [JObj] when all its keys are such strings and a [JWObj],
    with every key as the list of its code units, when one of them is
    not. *)
Unset Elimination Schemes.
Inductive json : Type :=
  | JNull
  | JBool (b : bool)
  | JNum (x : number)
  | JStr (s : string)
  | JWide (units : list N)
  | JArr (items : list json)
  | JObj (props : list (string * json))
  | JWObj (wprops : list (list N * json)).
Set Elimination Schemes.

Inductive errno := ENOENT | EACCES | EISDIR | EIO | ENOSPC | EROFS.

(** What a [throw] carries: a Node.js system error with its [code], a
    [SyntaxError] of [JSON.parse], or a [TypeError]. *)
Inductive exn :=
  | SystemError (code : errno)
  | SyntaxError
  | TypeError.

(** Arithmetic of the doubles, on exact fractions. *)
Module Number.
Local Open Scope Z_scope.

Definition eqb (x y : number) : bool :=
  match x, y with
  | Whole a, Whole b => a =? b
  | Dyadic a j, Dyadic b k => (a =? b) && (j =? k)%positive
  | Infinity a, Infinity b => Bool.eqb a b
  | _, _ => false
  end.

Definition opposite (x : number) : number :=
  match x with
  | Whole n => Whole (- n)
  | Dyadic m k => Dyadic (- m) k
  | Infinity s => Infinity (negb s)
  end.

(** The integers that every double arithmetic keeps exact. *)
Definition safe (n : Z) : bool := Z.abs n <=? 2 ^ 53.

(** [a / b] rounded to the nearest integer, a tie to the even one
    ([0 <= a], [0 < b]). *)
Definition half_even (a b : Z) : Z :=
  let q := a / b in
  match 2 * (a mod b) ?= b with
  | Lt => q
  | Gt => q + 1
  | Eq => if Z.even q then q else q + 1
  end.

(** The [e] with [2^e <= a / b < 2^(e+1)] ([0 < a], [0 < b]). *)
Definition floor_log2 (a b : Z) : Z :=
  let d := Z.log2 a - Z.log2 b in
  if (if 0 <=? d then b * 2 ^ d <=? a else b <=? a * 2 ^ (- d))
  then d else d - 1.

(** The number [m * 2^q] ([0 <= m]). *)
Definition dyadic (m q : Z) : number :=
  if 0 <=? q then Whole (m * 2 ^ q)
  else
    let g := Z.gcd m (2 ^ (- q)) in
    match 2 ^ (- q) / g with
    | Zpos 1 => Whole (m / g)
    | d => Dyadic (m / g) (Z.to_pos (Z.log2 d))
    end.

(** The double nearest to [a / b] ([0 <= a], [0 < b]), a tie to the one
    with the even significand: 53 bits of significand, down to the
    exponent -1074 of the subnormal numbers; from [2^1024] on the result
    is infinite. *)
Definition nearest (a b : Z) : number :=
  if a =? 0 then Whole 0
  else
    let q := Z.max (floor_log2 a b - 52) (- 1074) in
    let m := if 0 <=? q then half_even a (b * 2 ^ q)
             else half_even (a * 2 ^ (- q)) b in
    if (0 <=? q) && (2 ^ 1024 <=? m * 2 ^ q) then Infinity false
    else dyadic m q.

(** [s * 10^e] as a fraction. *)
Definition times_pow10 (s e : Z) : Z * Z :=
  if 0 <=? e then (s * 10 ^ e, 1) else (s, 10 ^ (- e)).

(** The Number value of the decimal [m * 10^e], which is what a numeric
    literal of JSON denotes.  An integer up to [2^53] is a double, the one
    that the rounding gives ([NumberFacts.of_decimal_shortcut]).  The two
    tests on [e] only spare the arithmetic: with [310 < e] the
    decimal is beyond the largest double, and with
    [log2 |m| + 1 + 3 * e < -1075] it is below half the smallest one. *)
Definition of_decimal (m e : Z) : number :=
  if m =? 0 then Whole 0
  else if (0 <=? e) && (e <=? 310) && safe (m * 10 ^ e) then Whole (m * 10 ^ e)
  else if 310 <? e then Infinity (m <? 0)
  else if Z.log2 (Z.abs m) + 1 + 3 * e <? - 1075 then Whole 0
  else
    let (c, d) := times_pow10 (Z.abs m) e in
    if m <? 0 then opposite (nearest c d) else nearest c d.

(** The value of a finite number as a fraction. *)
Definition ratio (x : number) : Z * Z :=
  match x with
  | Whole n => (n, 1)
  | Dyadic m k => (m, 2 ^ Z.pos k)
  | Infinity _ => (0, 1)
  end.

(** [a / b < 10^n]. *)
Definition below_pow10 (a b n : Z) : bool :=
  if 0 <=? n then a <? b * 10 ^ n else a * 10 ^ (- n) <? b.

Fixpoint first_decade (fuel : nat) (a b n : Z) : Z :=
  match fuel with
  | O => n
  | S fuel' => if below_pow10 a b n then n else first_decade fuel' a b (n + 1)
  end.

(** The [n] with [10^(n-1) <= a / b < 10^n]: the search starts just below
    it, at the estimate that the binary logarithm gives. *)
Definition decade (a b : Z) : Z :=
  first_decade 8 a b (floor_log2 a b * 30103 / 100000 - 1).

(** Is [x] the double nearest to [s * 10^e]? *)
Definition denotes (s e : Z) (x : number) : bool :=
  let (c, d) := times_pow10 s e in eqb (nearest c d) x.

(** The integer [s] of [k] figures, if there is one, such that
    [s * 10^(n-k)] denotes [x = a / b]: only the two integers around
    [x / 10^(n-k)] can do; of two that do, the nearer to [x]. *)
Definition figures (a b n k : Z) (x : number) : option Z :=
  let e := n - k in
  let lo := if 0 <=? e then a / (b * 10 ^ e) else a * 10 ^ (- e) / b in
  let hi := lo + 1 in
  match denotes lo e x, denotes hi e x with
  | false, false => None
  | true, false => Some lo
  | false, true => Some hi
  | true, true =>
      let (c, d) := times_pow10 (lo + hi) e in
      match 2 * a * d ?= c * b with
      | Lt => Some lo
      | Gt => Some hi
      | Eq => Some (if Z.even lo then lo else hi)
      end
  end.

(** The least number of figures [k], from [k] on, that denote [x], and
    the figures.  Seventeen figures denote every double, so the search,
    which starts at one figure, ends before its fuel does. *)
Fixpoint shortest (fuel : nat) (a b n k : Z) (x : number) : Z * Z :=
  match fuel with
  | O => (if 0 <=? n - 17 then half_even a (b * 10 ^ (n - 17))
          else half_even (a * 10 ^ (17 - n)) b, 17)
  | S fuel' =>
      match figures a b n k x with
      | Some s => (s, k)
      | None => shortest fuel' a b n (k + 1) x
      end
  end.

Fixpoint zeros (n : nat) : string :=
  match n with
  | O => EmptyString
  | S n' => String "0" (zeros n')
  end.

(** The decimal digits of an integer. *)
Definition digits (n : Z) : string := NilZero.string_of_int (Z.to_int n).

(** Number::toString on a positive finite number: the figures [s], their
    count [k] and the decade [n] are such that [s * 10^(n-k)] denotes the
    number with [k] as small as possible; they are laid out without an
    exponent when [-6 < n <= 21]. *)
Definition positive_text (x : number) : string :=
  let (a, b) := ratio x in
  let n0 := decade a b in
  let (s0, k) := shortest 17 a b n0 1 x in
  let (s, n) := if s0 =? 10 ^ k then (10 ^ (k - 1), n0 + 1) else (s0, n0) in
  let ds := digits s in
  if (k <=? n) && (n <=? 21) then ds ++ zeros (Z.to_nat (n - k))
  else if (0 <? n) && (n <=? 21) then
    substring 0 (Z.to_nat n) ds ++ "."
      ++ substring (Z.to_nat n) (Z.to_nat (k - n)) ds
  else if (-6 <? n) && (n <=? 0) then
    "0." ++ zeros (Z.to_nat (- n)) ++ ds
  else
    let e := n - 1 in
    let sign := if e <? 0 then "-" else "+" in
    let mantissa :=
      if k =? 1 then ds
      else substring 0 1 ds ++ "." ++ substring 1 (Z.to_nat (k - 1)) ds in
    mantissa ++ "e" ++ sign ++ digits (Z.abs e).

(** The sign of a number, and the double nearest to its absolute
    value (the number itself when it is a double). *)
Definition is_negative (x : number) : bool :=
  match x with
  | Whole n => n <? 0
  | Dyadic m _ => m <? 0
  | Infinity s => s
  end.

Definition magnitude (x : number) : number :=
  match x with
  | Infinity _ => Infinity false
  | _ => let (a, b) := ratio x in nearest (Z.abs a) b
  end.

Definition is_infinite (x : number) : bool :=
  match x with
  | Infinity _ => true
  | _ => false
  end.

(** [Number.isFinite]. *)
Definition finite (x : number) : bool :=
  match x with
  | Whole n => safe n || negb (is_infinite (magnitude x))
  | _ => negb (is_infinite (magnitude x))
  end.

Definition general_text (x : number) : string :=
  match magnitude x with
  | Infinity _ => if is_negative x then "-Infinity" else "Infinity"
  | Whole 0 => "0"
  | y => if is_negative x then "-" ++ positive_text y else positive_text y
  end.

(** Number::toString.  A safe integer is written digit for digit (its
    shortest figures are its digits without the zeros at the end, which
    the layout puts back). *)
Definition toString (x : number) : string :=
  match x with
  | Whole n => if safe n then digits n else general_text x
  | _ => general_text x
  end.

End Number.

Module JS.

(** The code units of a string of the model, and the string of code
    units that are all below U+0100. *)
Definition units_of (s : string) : list N :=
  map N_of_ascii (list_ascii_of_string s).

Fixpoint narrow (units : list N) : option string :=
  match units with
  | [] => Some EmptyString
  | u :: rest =>
      if (u <? 256)%N then
        match narrow rest with
        | Some s => Some (String (ascii_of_N u) s)
        | None => None
        end
      else None
  end.

(** [ToBoolean] on the value of a property read; [None] is [undefined]. *)
Definition truthy (v : option json) : bool :=
  match v with
  | None => false
  | Some JNull => false
  | Some (JBool b) => b
  | Some (JNum (Whole n)) => negb (n =? 0)%Z
  | Some (JNum (Dyadic m _)) => negb (m =? 0)%Z
  | Some (JNum (Infinity _)) => true
  | Some (JStr s) => negb (s =? EmptyString)
  | Some (JWide units) => negb (Nat.eqb (List.length units) 0)
  | Some (JArr _) => true
  | Some (JObj _) => true
  | Some (JWObj _) => true
  end.

(** A key that is an array index: the decimal digits, without a zero in
    front, of an integer below [2^32 - 1]. *)
Definition array_index (k : string) : option N :=
  match NilEmpty.uint_of_string k with
  | Some u =>
      let n := N.of_uint u in
      if (NilZero.string_of_uint (Decimal.unorm u) =? k) && (n <? 4294967295)%N
      then Some n else None
  | None => None
  end.

(** In the order of the own properties of an object the array indices
    come first, in ascending order, and the other keys follow in the
    order of their creation: must a new key [k] stand before the present
    key [k']? *)
Definition before (index : option N) (index' : option N) : bool :=
  match index, index' with
  | Some i, Some j => (i <? j)%N
  | Some _, None => true
  | None, _ => false
  end.

Section Properties.
Variable K : Type.
Variable same : K -> K -> bool.
Variable index : K -> option N.

Fixpoint find (k : K) (ps : list (K * json)) : option json :=
  match ps with
  | [] => None
  | (k', v) :: ps' => if same k' k then Some v else find k ps'
  end.

Fixpoint replace (k : K) (v : json) (ps : list (K * json)) : list (K * json) :=
  match ps with
  | [] => []
  | (k', v') :: ps' =>
      if same k' k then (k', v) :: ps' else (k', v') :: replace k v ps'
  end.

Fixpoint insert (k : K) (v : json) (ps : list (K * json)) : list (K * json) :=
  match ps with
  | [] => [(k, v)]
  | (k', v') :: ps' =>
      if before (index k) (index k') then (k, v) :: ps
      else (k', v') :: insert k v ps'
  end.

(** The property [k] gets the value [v]: a property that exists keeps
    its place, a new one takes the place that the order of the keys gives
    it. *)
Definition put (k : K) (v : json) (ps : list (K * json)) : list (K * json) :=
  match find k ps with
  | Some _ => replace k v ps
  | None => insert k v ps
  end.

End Properties.

Arguments find {K}.
Arguments replace {K}.
Arguments insert {K}.
Arguments put {K}.

Definition lookup (k : string) (ps : list (string * json)) : option json :=
  find String.eqb k ps.

Definition update (k : string) (v : json) (ps : list (string * json))
  : list (string * json) :=
  put String.eqb array_index k v ps.

Definition same_units (a b : list N) : bool :=
  if list_eq_dec N.eq_dec a b then true else false.

Definition wide_index (k : list N) : option N :=
  match narrow k with
  | Some s => array_index s
  | None => None
  end.

Definition wlookup (k : string) (ps : list (list N * json)) : option json :=
  find same_units (units_of k) ps.

Definition wupdate (k : list N) (v : json) (ps : list (list N * json))
  : list (list N * json) :=
  put same_units wide_index k v ps.

(** The read [o.k], for the keys this program reads ([nombre], [apellido],
    [telefono], [id]): none of them is defined on a prototype, so the read
    finds an own property of an object or [undefined]; on [null] it throws. *)
Definition get (o : json) (k : string) : exn + option json :=
  match o with
  | JNull => inl TypeError
  | JObj ps => inr (lookup k ps)
  | JWObj ps => inr (wlookup k ps)
  | _ => inr None
  end.

(** The assignment [o.k = v].  On an array or a primitive nothing that
    JSON shows changes. *)
Definition set (o : json) (k : string) (v : json) : exn + json :=
  match o with
  | JNull => inl TypeError
  | JObj ps => inr (JObj (update k v ps))
  | JWObj ps => inr (JWObj (wupdate (units_of k) v ps))
  | _ => inr o
  end.

(** [a.push(x)]; only arrays have the method. *)
Definition push (a : json) (x : json) : exn + json :=
  match a with
  | JArr l => inr (JArr (l ++ [x])%list)
  | _ => inl TypeError
  end.

(** [Number.prototype.toString] on an integer that is written digit for
    digit: a time value of [Date.now], a status. *)
Definition Number_toString (n : Z) : string :=
  NilZero.string_of_int (Z.to_int n).

End JS.

(** ** [JSON.stringify] and [JSON.parse] *)

Module JSON.
Import Text.

Definition hex_digit (n : N) : ascii :=
  if (n <? 10)%N then ascii_of_N (48 + n) else ascii_of_N (87 + n).

(** One code unit of a string inside its quotes (QuoteJSONString). *)
Definition quote_char (c : ascii) : string :=
  if (c =? dquote)%char then String backslash (str1 dquote)
  else if (c =? backslash)%char then String backslash (str1 backslash)
  else if (c =? BS)%char then String backslash "b"
  else if (c =? FF)%char then String backslash "f"
  else if (c =? LF)%char then String backslash "n"
  else if (c =? CR)%char then String backslash "r"
  else if (c =? TAB)%char then String backslash "t"
  else if (code c <? 32)%N then
    String backslash
      (String "u" (String "0" (String "0"
        (String (hex_digit (code c / 16)) (str1 (hex_digit (code c mod 16)))))))
  else str1 c.

Fixpoint quote_body (s : string) : string :=
  match s with
  | EmptyString => EmptyString
  | String c r => quote_char c ++ quote_body r
  end.

Definition QuoteJSONString (s : string) : string :=
  String dquote (quote_body s ++ str1 dquote).

(** A code unit above U+00FF is not of the alphabet of the model: where
    the program writes the character itself, the model writes its escape,
    which [JSON.parse] reads as the same code unit. *)
Definition quote_unit (u : N) : string :=
  if (u <? 256)%N then quote_char (ascii_of_N u)
  else
    String backslash
      (String "u"
        (String (hex_digit (u / 4096))
          (String (hex_digit (u / 256 mod 16))
            (String (hex_digit (u / 16 mod 16)) (str1 (hex_digit (u mod 16))))))).

Fixpoint quote_units (units : list N) : string :=
  match units with
  | [] => EmptyString
  | u :: rest => quote_unit u ++ quote_units rest
  end.

Definition QuoteUnits (units : list N) : string :=
  String dquote (quote_units units ++ str1 dquote).

(** A number as JSON writes it: a finite one by [Number::toString], an
    infinite one as [null]. *)
Definition number_text (x : number) : string :=
  if Number.finite x then Number.toString x else "null".

(** The indentation after [k] levels of nesting with a gap of two spaces. *)
Fixpoint indent (k : nat) : string :=
  match k with
  | O => EmptyString
  | S k' => String SP (String SP (indent k'))
  end.

(** With a gap ([pretty]) every item starts on a line of its own, indented;
    without one nothing is inserted. *)
Definition newline (pretty : bool) (k : nat) : string :=
  if pretty then String LF (indent k) else EmptyString.

Definition separator (pretty : bool) (k : nat) : string :=
  String "," (newline pretty k).

Definition colon (pretty : bool) : string :=
  if pretty then ": " else ":".

(** SerializeJSONProperty at nesting depth [k]; [pretty] is "the gap is two
    spaces" and its negation is "the gap is empty". *)
Fixpoint serialize (pretty : bool) (k : nat) (v : json) : string :=
  match v with
  | JNull => "null"
  | JBool true => "true"
  | JBool false => "false"
  | JNum x => number_text x
  | JStr s => QuoteJSONString s
  | JWide units => QuoteUnits units
  | JArr [] => "[]"
  | JArr items =>
      "[" ++ newline pretty (S k)
          ++ String.concat (separator pretty (S k))
               (map (serialize pretty (S k)) items)
          ++ newline pretty k ++ "]"
  | JObj [] => "{}"
  | JObj props =>
      "{" ++ newline pretty (S k)
          ++ String.concat (separator pretty (S k))
               (map (fun p => QuoteJSONString (fst p) ++ colon pretty
                                ++ serialize pretty (S k) (snd p)) props)
          ++ newline pretty k ++ "}"
  | JWObj [] => "{}"
  | JWObj props =>
      "{" ++ newline pretty (S k)
          ++ String.concat (separator pretty (S k))
               (map (fun p => QuoteUnits (fst p) ++ colon pretty
                                ++ serialize pretty (S k) (snd p)) props)
          ++ newline pretty k ++ "}"
  end.

(** [JSON.stringify (v, null, 2)]. *)
Definition stringify2 (v : json) : string := serialize true 0 v.

(** [JSON.stringify (v)]. *)
Definition stringify (v : json) : string := serialize false 0 v.

(** JSON white space: tab, line feed, carriage return, space. *)
Definition is_ws (c : ascii) : bool :=
  (c =? TAB)%char || (c =? LF)%char || (c =? CR)%char || (c =? SP)%char.

Definition skip_ws (s : string) : string := drop_while is_ws s.

Definition hex_value (c : ascii) : option N :=
  if between 48 57 c then Some (code c - 48)%N
  else if between 97 102 c then Some (code c - 87)%N
  else if between 65 70 c then Some (code c - 55)%N
  else None.

Definition hex4 (a b c d : ascii) : option N :=
  match hex_value a, hex_value b, hex_value c, hex_value d with
  | Some x, Some y, Some z, Some w => Some (((x * 16 + y) * 16 + z) * 16 + w)%N
  | _, _, _, _ => None
  end.

(** The character a one-letter escape stands for. *)
Definition unescape (e : ascii) : option ascii :=
  if (e =? dquote)%char then Some dquote
  else if (e =? backslash)%char then Some backslash
  else if (e =? "/")%char then Some "/"%char
  else if (e =? "b")%char then Some BS
  else if (e =? "f")%char then Some FF
  else if (e =? "n")%char then Some LF
  else if (e =? "r")%char then Some CR
  else if (e =? "t")%char then Some TAB
  else None.

Definition cons_unit (u : N) (r : option (list N * string))
  : option (list N * string) :=
  match r with
  | Some (units, rest) => Some (u :: units, rest)
  | None => None
  end.

(** Reads a string literal after its opening quote: its code units up to
    the closing quote, and what follows it. *)
Fixpoint parse_string (s : string) : option (list N * string) :=
  match s with
  | EmptyString => None
  | String c r =>
      if (c =? dquote)%char then Some ([], r)
      else if (c =? backslash)%char then
        match r with
        | EmptyString => None
        | String e r1 =>
            if (e =? "u")%char then
              match r1 with
              | String h1 (String h2 (String h3 (String h4 r2))) =>
                  match hex4 h1 h2 h3 h4 with
                  | Some n => cons_unit n (parse_string r2)
                  | None => None
                  end
              | _ => None
              end
            else
              match unescape e with
              | Some c' => cons_unit (code c') (parse_string r1)
              | None => None
              end
        end
      else if (code c <? 32)%N then None
      else cons_unit (code c) (parse_string r)
  end.

(** The string value of a literal that has the given code units. *)
Definition text_value (units : list N) : json :=
  match JS.narrow units with
  | Some s => JStr s
  | None => JWide units
  end.

(** The longest prefix of digits, and the rest. *)
Fixpoint span_digits (s : string) : string * string :=
  match s with
  | EmptyString => (EmptyString, EmptyString)
  | String c r =>
      if is_digit c
      then let (ds, rest) := span_digits r in (String c ds, rest)
      else (EmptyString, s)
  end.

(** More than one digit, the first of them a zero. *)
Definition leading_zero (ds : string) : bool :=
  match ds with
  | String c (String _ _) => (c =? "0")%char
  | _ => false
  end.

(** The digits of an optional fraction [. digit+] (none without one). *)
Definition parse_fraction (s : string) : option (string * string) :=
  match s with
  | String "." r =>
      let (fs, rest) := span_digits r in
      if fs =? EmptyString then None else Some (fs, rest)
  | _ => Some (EmptyString, s)
  end.

Definition digits_value (ds : string) : option Z :=
  match NilEmpty.uint_of_string ds with
  | Some u => Some (Z.of_uint u)
  | None => None
  end.

(** The digits [digit+] of an exponent, with the sign that came before. *)
Definition exponent_digits (negative : bool) (s : string) : option (Z * string) :=
  let (es, rest) := span_digits s in
  if es =? EmptyString then None
  else
    match digits_value es with
    | Some e => Some (if negative then Z.opp e else e, rest)
    | None => None
    end.

(** The value of an optional exponent [(e|E) (+|-)? digit+] (zero without
    one). *)
Definition parse_exponent (s : string) : option (Z * string) :=
  match s with
  | String c r =>
      if (c =? "e")%char || (c =? "E")%char then
        match r with
        | String "+" r' => exponent_digits false r'
        | String "-" r' => exponent_digits true r'
        | _ => exponent_digits false r
        end
      else Some (0%Z, s)
  | EmptyString => Some (0%Z, s)
  end.

(** An unsigned numeric literal: the integer part (["0"], or digits that
    do not start with a zero), a fraction, an exponent.  It denotes the
    decimal whose digits are those of the two parts and whose exponent is
    lowered by the length of the fraction. *)
Definition parse_unsigned (negative : bool) (s : string)
  : option (number * string) :=
  let (ds, r1) := span_digits s in
  if (ds =? EmptyString) || leading_zero ds then None
  else
    match parse_fraction r1 with
    | None => None
    | Some (fs, r2) =>
        match parse_exponent r2 with
        | None => None
        | Some (e, r3) =>
            match digits_value (ds ++ fs) with
            | Some m =>
                Some (Number.of_decimal (if negative then Z.opp m else m)
                        (e - Z.of_nat (String.length fs)), r3)
            | None => None
            end
        end
    end.

Definition parse_number (s : string) : option (number * string) :=
  match s with
  | String "-" r => parse_unsigned true r
  | _ => parse_unsigned false s
  end.

(** Removes the prefix [p] from [s], or fails. *)
Fixpoint expect (p s : string) : option string :=
  match p with
  | EmptyString => Some s
  | String c p' =>
      match s with
      | String c' s' => if (c =? c')%char then expect p' s' else None
      | EmptyString => None
      end
  end.

(** Builds an object from its members in source order: every member is
    put in turn, so a repeated key overwrites the value of its first
    occurrence and the array indices come first. *)
Definition build_object (ms : list (string * json)) : list (string * json) :=
  fold_left (fun o m => JS.update (fst m) (snd m) o) ms [].

Definition build_wide (ms : list (list N * json)) : list (list N * json) :=
  fold_left (fun o m => JS.wupdate (fst m) (snd m) o) ms [].

(** The members with their keys as strings, when every key is one. *)
Fixpoint narrow_keys (ms : list (list N * json)) : option (list (string * json)) :=
  match ms with
  | [] => Some []
  | (k, v) :: ms' =>
      match JS.narrow k, narrow_keys ms' with
      | Some s, Some ps => Some ((s, v) :: ps)
      | _, _ => None
      end
  end.

(** The object that has the given members. *)
Definition object_value (ms : list (list N * json)) : json :=
  match narrow_keys ms with
  | Some ps => JObj (build_object ps)
  | None => JWObj (build_wide ms)
  end.

(** The recursive-descent parser.  Each function returns what it read and
    the text after it; [fuel] bounds the nesting of calls.
    - [parse_value] reads one value after optional white space;
    - [parse_elements] reads [value (, value)* ]], after the opening
      bracket of a non-empty array;
    - [parse_members] reads ["key" : value (, "key" : value)* }], after the
      opening brace of a non-empty object. *)
Fixpoint parse_value (fuel : nat) (s : string) {struct fuel}
  : option (json * string) :=
  match fuel with
  | O => None
  | S fuel' =>
      match skip_ws s with
      | EmptyString => None
      | String c r =>
          if (c =? "[")%char then
            match skip_ws r with
            | EmptyString => None
            | String c' r' =>
                if (c' =? "]")%char then Some (JArr [], r')
                else
                  match parse_elements fuel' r with
                  | Some (vs, rest) => Some (JArr vs, rest)
                  | None => None
                  end
            end
          else if (c =? "{")%char then
            match skip_ws r with
            | EmptyString => None
            | String c' r' =>
                if (c' =? "}")%char then Some (JObj [], r')
                else
                  match parse_members fuel' r with
                  | Some (ms, rest) => Some (object_value ms, rest)
                  | None => None
                  end
            end
          else if (c =? dquote)%char then
            match parse_string r with
            | Some (units, rest) => Some (text_value units, rest)
            | None => None
            end
          else if (c =? "n")%char then
            match expect "ull" r with
            | Some rest => Some (JNull, rest)
            | None => None
            end
          else if (c =? "t")%char then
            match expect "rue" r with
            | Some rest => Some (JBool true, rest)
            | None => None
            end
          else if (c =? "f")%char then
            match expect "alse" r with
            | Some rest => Some (JBool false, rest)
            | None => None
            end
          else
            match parse_number (String c r) with
            | Some (n, rest) => Some (JNum n, rest)
            | None => None
            end
      end
  end

with parse_elements (fuel : nat) (s : string) {struct fuel}
  : option (list json * string) :=
  match fuel with
  | O => None
  | S fuel' =>
      match parse_value fuel' s with
      | None => None
      | Some (v, r) =>
          match skip_ws r with
          | EmptyString => None
          | String c r' =>
              if (c =? ",")%char then
                match parse_elements fuel' r' with
                | Some (vs, rest) => Some (v :: vs, rest)
                | None => None
                end
              else if (c =? "]")%char then Some ([v], r')
              else None
          end
      end
  end

with parse_members (fuel : nat) (s : string) {struct fuel}
  : option (list (list N * json) * string) :=
  match fuel with
  | O => None
  | S fuel' =>
      match skip_ws s with
      | EmptyString => None
      | String q r0 =>
          if (q =? dquote)%char then
            match parse_string r0 with
            | None => None
            | Some (k, r1) =>
                match skip_ws r1 with
                | EmptyString => None
                | String c1 r2 =>
                    if (c1 =? ":")%char then
                      match parse_value fuel' r2 with
                      | None => None
                      | Some (v, r3) =>
                          match skip_ws r3 with
                          | EmptyString => None
                          | String c3 r4 =>
                              if (c3 =? ",")%char then
                                match parse_members fuel' r4 with
                                | Some (ms, rest) => Some ((k, v) :: ms, rest)
                                | None => None
                                end
                              else if (c3 =? "}")%char then Some ([(k, v)], r4)
                              else None
                          end
                      end
                    else None
                end
            end
          else None
      end
  end.

(** [JSON.parse]: one value, then nothing but white space.  Every call of
    the parser consumes a character, so the length of the text is enough
    fuel ([JSONFacts.parse_any_fuel]). *)
Definition parse (s : string) : exn + json :=
  match parse_value (S (String.length s)) s with
  | Some (v, rest) =>
      match skip_ws rest with
      | EmptyString => inr v
      | _ => inl SyntaxError
      end
  | None => inl SyntaxError
  end.

End JSON.

(** ** The browser side: [Validator] and the form handler of [Agenda] *)

(** The object literal [{nombre, apellido, telefono}] built from the form. *)
Record contactData := {
  nombre : string;
  apellido : string;
  telefono : string
}.

Module Validator.
Import Text.

(** The accented letters listed in [nameRegex]. *)
Definition accented : list ascii :=
  [ "225"; "233"; "237"; "243"; "250";     (* a e i o u, acute *)
    "193"; "201"; "205"; "211"; "218";     (* A E I O U, acute *)
    "241"; "209";                          (* n, N with tilde *)
    "252"; "220" ]%char.                   (* u, U with diaeresis *)

(** The character class of [nameRegex]: [a-z], [A-Z], the accented
    letters, [\s], the apostrophe and the hyphen. *)
Definition name_class (c : ascii) : bool :=
  between 97 122 c || between 65 90 c
  || existsb (Ascii.eqb c) accented
  || is_space c || (c =? "'")%char || (c =? "-")%char.

(** [nameRegex.test (name)]: between the anchors, one or more characters
    of the class. *)
Definition nameRegex_test (name : string) : bool :=
  negb (name =? EmptyString) && all name_class name.

Definition isValidPhone (phone : string) : bool :=
  if phone =? EmptyString then false
  else
    let cleanPhone := strip_non_digits phone in
    (7 <=? String.length cleanPhone)%nat && (String.length cleanPhone <=? 15)%nat.

Definition isValidName (name : string) : bool :=
  if name =? EmptyString then false
  else
    nameRegex_test name
    && (2 <=? String.length name)%nat && (String.length name <=? 50)%nat.

Definition sanitizeText (text : string) : string :=
  if text =? EmptyString then EmptyString
  else collapse_spaces (trim text).

Record validation := {
  isValid : bool;
  errors : list string
}.

Definition e_acute : string := str1 "233"%char.

Definition msg_nombre_obligatorio : string := "El nombre es obligatorio".
Definition msg_nombre_invalido : string :=
  "El nombre debe contener solo letras y tener entre 2 y 50 caracteres".
Definition msg_apellido_obligatorio : string := "El apellido es obligatorio".
Definition msg_apellido_invalido : string :=
  "El apellido debe contener solo letras y tener entre 2 y 50 caracteres".
Definition msg_telefono_obligatorio : string :=
  "El tel" ++ e_acute ++ "fono es obligatorio".
Definition msg_telefono_invalido : string :=
  "El tel" ++ e_acute ++ "fono debe tener entre 7 y 15 d"
    ++ str1 "237"%char ++ "gitos".

(** One field of [validateContact]: the message pushed on [errors], if
    any. *)
Definition check_field (value : string) (valid : string -> bool)
    (missing invalid : string) : list string :=
  if value =? EmptyString then [missing]
  else if negb (valid value) then [invalid]
  else [].

Definition validateContact (c : contactData) : validation :=
  let errors :=
    (check_field (nombre c) isValidName
       msg_nombre_obligatorio msg_nombre_invalido
     ++ check_field (apellido c) isValidName
       msg_apellido_obligatorio msg_apellido_invalido
     ++ check_field (telefono c) isValidPhone
       msg_telefono_obligatorio msg_telefono_invalido)%list in
  {| isValid := (List.length errors =? 0)%nat; errors := errors |}.

End Validator.

Module Agenda.
Import Text.

(** What [formData.get] returns for the three inputs: a string, or [null]
    ([None]) when the form has no such field. *)
Record FormData := {
  get_nombre : option string;
  get_apellido : option string;
  get_telefono : option string
}.

(** [(formData.get (name) || '').trim ()]. *)
Definition field (v : option string) : string :=
  match v with
  | Some s => trim s
  | None => EmptyString
  end.

(** [JSON.stringify (contactData)] sees the three properties in the order
    of the object literal. *)
Definition to_json (c : contactData) : json :=
  JObj [ ("nombre", JStr (nombre c));
         ("apellido", JStr (apellido c));
         ("telefono", JStr (telefono c)) ].

(** What a submission of the form leads to: nothing (a request is under
    way or there is no form), an error message on the page, or a [POST]
    whose body is the given text. *)
Inductive submission :=
  | Ignored
  | ShowError (message : string)
  | Post (body : string).

(** [handleFormSubmit], up to the [fetch] of [addContact]. *)
Definition handleFormSubmit (isLoading has_form : bool) (formData : FormData)
  : submission :=
  if isLoading || negb has_form then Ignored
  else
    let contactData :=
      {| nombre := field (get_nombre formData);
         apellido := field (get_apellido formData);
         telefono := field (get_telefono formData) |} in
    let validation := Validator.validateContact contactData in
    if negb (Validator.isValid validation)
    then ShowError (String.concat "<br>" (Validator.errors validation))
    else
      let contactData :=
        {| nombre := Validator.sanitizeText (nombre contactData);
           apellido := Validator.sanitizeText (apellido contactData);
           telefono := strip_non_digits (telefono contactData) |} in
      Post (JSON.stringify (to_json contactData)).

End Agenda.

(** ** The backend: the data file, the clock and the two routes *)

(** The state of [DATA_FILE] as [fs.readFile] meets it. *)
Inductive node :=
  | Absent
  | Regular (data : string)
  | Unreadable (code : errno).

(** How a write to [DATA_FILE] fails.  [fs.writeFile] opens the file with
    the flag [w], which truncates it, and then writes: a failure of the
    open ([EACCES], [EISDIR], [EROFS]) leaves the file as it was; a failure
    after it ([ENOSPC], [EIO]) leaves the characters written so far. *)
Inductive fault :=
  | FailsAtOpen (code : errno)
  | FailsAfterOpen (code : errno) (written : nat).

(** The world a request runs in: the data file, the failure (if any) that
    a write to it meets, and the reading of the clock (a time value, an
    integer). *)
Record world := {
  disk : node;
  write_fault : option fault;
  clock : Z
}.

(** The clock moves between requests. *)
Definition at_time (t : Z) (w : world) : world :=
  {| disk := disk w; write_fault := write_fault w; clock := t |}.

(** Computations that read and change the world and may throw. *)
Definition M (A : Type) : Type := world -> (exn + A) * world.

Definition ret {A} (a : A) : M A := fun w => (inr a, w).

Definition throw {A} (e : exn) : M A := fun w => (inl e, w).

Definition bind {A B} (m : M A) (k : A -> M B) : M B :=
  fun w =>
    match m w with
    | (inr a, w') => k a w'
    | (inl e, w') => (inl e, w')
    end.

(** [try { m } catch (error) { handler }]. *)
Definition try_catch {A} (m : M A) (handler : exn -> M A) : M A :=
  fun w =>
    match m w with
    | (inr a, w') => (inr a, w')
    | (inl e, w') => handler e w'
    end.

(** A pure step that may throw. *)
Definition lift {A} (r : exn + A) : M A := fun w => (r, w).

Notation "x <- m ;; k" := (bind m (fun x => k))
  (at level 61, m at next level, right associativity).
Notation "m ;;; k" := (bind m (fun _ => k))
  (at level 61, right associativity).

Module fs.

(** [fs.readFile (DATA_FILE, 'utf8')]. *)
Definition readFile : M string :=
  fun w =>
    match disk w with
    | Absent => (inl (SystemError ENOENT), w)
    | Regular data => (inr data, w)
    | Unreadable code => (inl (SystemError code), w)
    end.

(** [fs.writeFile (DATA_FILE, data, 'utf8')]: without a failure the file
    is created or replaced as a whole. *)
Definition writeFile (data : string) : M unit :=
  fun w =>
    match write_fault w with
    | Some (FailsAtOpen code) => (inl (SystemError code), w)
    | Some (FailsAfterOpen code written) =>
        (inl (SystemError code),
         {| disk := Regular (substring 0 written data);
            write_fault := write_fault w;
            clock := clock w |})
    | None =>
        (inr tt,
         {| disk := Regular data;
            write_fault := write_fault w;
            clock := clock w |})
    end.

End fs.

(** [Date.now ()]. *)
Definition Date_now : M Z := fun w => (inr (clock w), w).

Definition is_ENOENT (error : exn) : bool :=
  match error with
  | SystemError ENOENT => true
  | _ => false
  end.

Definition is_SyntaxError (error : exn) : bool :=
  match error with
  | SyntaxError => true
  | _ => false
  end.

Definition readContacts : M json :=
  try_catch
    (data <- fs.readFile ;;
     lift (JSON.parse data))
    (fun error =>
       if is_ENOENT error || is_SyntaxError error
       then ret (JArr [])
       else throw error).

Definition writeContacts (contacts : json) : M unit :=
  fs.writeFile (JSON.stringify2 contacts).

(** What [res] sends: [res.json (v)] or [res.send (text)]. *)
Inductive payload :=
  | Json (v : json)
  | Send (text : string).

Record response := {
  status : Z;
  body : payload
}.

Definition message (text : string) : json := JObj [("message", JStr text)].

(** [app.get ('/api/contacts', ...)]. *)
Definition get_contacts : M response :=
  try_catch
    (contacts <- readContacts ;;
     ret {| status := 200; body := Json contacts |})
    (fun error =>
       ret {| status := 500;
              body := Json (message
                "Error interno del servidor al obtener contactos.") |}).

(** [app.post ('/api/contacts', ...)], with [req.body] as [express.json]
    left it.  The three property reads of the validation can only throw
    together (on [null]), so they are made before the test. *)
Definition post_contacts (req_body : json) : M response :=
  try_catch
    (let newContact := req_body in
     nombre <- lift (JS.get newContact "nombre") ;;
     apellido <- lift (JS.get newContact "apellido") ;;
     telefono <- lift (JS.get newContact "telefono") ;;
     if negb (JS.truthy nombre) || negb (JS.truthy apellido)
        || negb (JS.truthy telefono)
     then
       ret {| status := 400;
              body := Json (message
                "Faltan campos obligatorios: nombre, apellido o telefono.") |}
     else
       contacts <- readContacts ;;
       now <- Date_now ;;
       newContact <- lift (JS.set newContact "id" (JStr (JS.Number_toString now))) ;;
       contacts <- lift (JS.push contacts newContact) ;;
       writeContacts contacts ;;;
       ret {| status := 201; body := Send "Contacto agregado exitosamente" |})
    (fun error =>
       ret {| status := 500;
              body := Json (message
                "Error interno del servidor al agregar contacto.") |}).

(** The length of a text in the bytes of UTF-8: one for a code unit below
    U+0080, two for the other code units of the alphabet. *)
Fixpoint utf8_length (text : string) : N :=
  match text with
  | EmptyString => 0
  | String c r => (if (Text.code c <? 128)%N then 1 else 2) + utf8_length r
  end.

(** The default [limit] of [express.json ()]: ['100kb']. *)
Definition body_limit : N := 102400.

(** [express.json ()] with its default options, on a request whose content
    type is JSON.  A body above the limit is refused with 413.  An empty
    body is [{}].  Otherwise (strict mode) the first character after white
    space must open an object or an array, and the text must parse; if not
    the body is refused with 400.  [inl status]: the middleware fails with
    that status and the route is not entered. *)
Definition express_json (text : string) : Z + json :=
  if (body_limit <? utf8_length text)%N then inl 413%Z
  else if text =? EmptyString then inr (JObj [])
  else
    match JSON.skip_ws text with
    | String c _ =>
        if (c =? "{")%char || (c =? "[")%char then
          match JSON.parse text with
          | inr v => inr v
          | inl _ => inl 400%Z
          end
        else inl 400%Z
    | EmptyString => inl 400%Z
    end.

(** What a request gets: the response of the route, or the refusal of the
    middleware, which the error handler of Express turns into a response
    with that status and a page of its own. *)
Inductive answer :=
  | Routed (r : response)
  | Refused (status : Z).

(** A [POST /api/contacts] as it comes from the network, with a JSON
    content type. *)
Definition handle_post (text : string) : M answer :=
  match express_json text with
  | inr req_body => r <- post_contacts req_body ;; ret (Routed r)
  | inl status => ret (Refused status)
  end.

(** ** The browser side, continued: [Utils] and the other methods of [Agenda] *)

(** [String.prototype] methods on the strings of the model. *)
Module JSString.
Import Text.

(** [toLowerCase] on one code unit: A-Z and the capital letters of
    U+00C0..U+00DE (all but the multiplication sign U+00D7) move up by 32. *)
Definition lower_unit (c : ascii) : ascii :=
  if between 65 90 c || (between 192 222 c && negb (c =? "215")%char)
  then ascii_of_N (code c + 32)
  else c.

Fixpoint toLowerCase (s : string) : string :=
  match s with
  | EmptyString => EmptyString
  | String c r => String (lower_unit c) (toLowerCase r)
  end.

(** [s.includes (q)]: [q] occurs in [s] at some position. *)
Fixpoint includes (s q : string) : bool :=
  String.prefix q s
  || match s with
     | EmptyString => false
     | String _ r => includes r q
     end.

(** [toLowerCase] on a code unit above U+00FF, as far as a search for
    text below U+0100 can tell: the five code units whose lower case has a
    code unit below U+0100 (U+0130, U+0178, U+1E9E, the Kelvin and the
    Angstrom sign); the lower case of every other one is made of code
    units above U+00FF, for which the code unit itself stands here. *)
Definition lower_wide (u : N) : list N :=
  if (u =? 304)%N then [105; 775]%N
  else if (u =? 376)%N then [255]%N
  else if (u =? 7838)%N then [223]%N
  else if (u =? 8490)%N then [107]%N
  else if (u =? 8491)%N then [229]%N
  else [u].

Fixpoint lower_units (units : list N) : list N :=
  match units with
  | [] => []
  | u :: rest =>
      ((if (u <? 256)%N then [code (lower_unit (ascii_of_N u))]
        else lower_wide u) ++ lower_units rest)%list
  end.

Fixpoint prefix_units (q s : list N) : bool :=
  match q, s with
  | [], _ => true
  | a :: q', b :: s' => (a =? b)%N && prefix_units q' s'
  | _ :: _, [] => false
  end.

(** [s.includes (q)] on lists of code units. *)
Fixpoint includes_units (s q : list N) : bool :=
  prefix_units q s
  || match s with
     | [] => false
     | _ :: r => includes_units r q
     end.

(** [s.startsWith (q)]. *)
Definition startsWith (s q : string) : bool := String.prefix q s.

(** Reads [n] digits at the start of [s]: the digits and what follows. *)
Fixpoint take_digits (n : nat) (s : string) : option (string * string) :=
  match n with
  | O => Some (EmptyString, s)
  | S n' =>
      match s with
      | EmptyString => None
      | String c r =>
          if is_digit c then
            match take_digits n' r with
            | Some (g, rest) => Some (String c g, rest)
            | None => None
            end
          else None
      end
  end.

(** Matches at the start of [s] a regular expression made of groups
    [(\d{n1})(\d{n2})...]: the text of each group, and what follows. *)
Fixpoint match_groups (ns : list nat) (s : string)
  : option (list string * string) :=
  match ns with
  | [] => Some ([], s)
  | n :: ns' =>
      match take_digits n s with
      | None => None
      | Some (g, r) =>
          match match_groups ns' r with
          | Some (gs, rest) => Some (g :: gs, rest)
          | None => None
          end
      end
  end.

(** [s.replace (re, template)] for such a regular expression without the
    [g] flag: the leftmost match is replaced by the template filled with
    the groups; without a match the string is returned as it is. *)
Fixpoint replace_groups (ns : list nat) (template : list string -> string)
    (s : string) : string :=
  match match_groups ns s with
  | Some (gs, rest) => template gs ++ rest
  | None =>
      match s with
      | EmptyString => EmptyString
      | String c r => String c (replace_groups ns template r)
      end
  end.

End JSString.

Module Utils.
Import Text JSString.

(** The group [$i] of a match (counted from 1). *)
Definition group (i : nat) (gs : list string) : string :=
  nth (i - 1) gs EmptyString.

(** ['($1) $2-$3']. *)
Definition national (gs : list string) : string :=
  "(" ++ group 1 gs ++ ") " ++ group 2 gs ++ "-" ++ group 3 gs.

(** ['+$1 ($2) $3-$4']. *)
Definition international (gs : list string) : string :=
  "+" ++ group 1 gs ++ " (" ++ group 2 gs ++ ") " ++ group 3 gs
      ++ "-" ++ group 4 gs.

Definition formatPhone (phone : string) : string :=
  if phone =? EmptyString then EmptyString
  else
    let cleaned := strip_non_digits phone in
    if (String.length cleaned =? 10)%nat then
      replace_groups [3; 3; 4] national cleaned
    else if (String.length cleaned =? 11)%nat && startsWith cleaned "1" then
      replace_groups [1; 3; 3; 4] international cleaned
    else phone.

End Utils.

Module Client.
Import Text JSString.

(** [a || b] on two tests that may throw: [b] is evaluated only when [a]
    is false. *)
Definition orelse (a b : exn + bool) : exn + bool :=
  match a with
  | inl e => inl e
  | inr true => inr true
  | inr false => b
  end.

(** [(contact.k || '').toLowerCase ().includes (query.toLowerCase ())]: a
    truthy value that is not a string has no [toLowerCase]. *)
Definition name_matches (contact : json) (k query : string) : exn + bool :=
  match JS.get contact k with
  | inl e => inl e
  | inr v =>
      if JS.truthy v then
        match v with
        | Some (JStr s) => inr (includes (toLowerCase s) (toLowerCase query))
        | Some (JWide units) =>
            inr (includes_units (lower_units units)
                   (JS.units_of (toLowerCase query)))
        | _ => inl TypeError
        end
      else inr (includes EmptyString (toLowerCase query))
  end.

(** [(contact.telefono || '').includes (query)]: on a string the query is
    looked for inside it, on an array among its items; other truthy
    values have no [includes]. *)
Definition telefono_matches (contact : json) (query : string) : exn + bool :=
  match JS.get contact "telefono" with
  | inl e => inl e
  | inr v =>
      if JS.truthy v then
        match v with
        | Some (JStr s) => inr (includes s query)
        | Some (JWide units) => inr (includes_units units (JS.units_of query))
        | Some (JArr items) =>
            inr (existsb (fun x => match x with
                                   | JStr s => s =? query
                                   | _ => false
                                   end) items)
        | _ => inl TypeError
        end
      else inr (includes EmptyString query)
  end.

(** The test of the filter of [searchContacts]. *)
Definition matches (query : string) (contact : json) : exn + bool :=
  orelse (name_matches contact "nombre" query)
    (orelse (name_matches contact "apellido" query)
       (telefono_matches contact query)).

(** [contacts.filter (test)] with a test that may throw. *)
Fixpoint filter (test : json -> exn + bool) (contacts : list json)
  : exn + list json :=
  match contacts with
  | [] => inr []
  | c :: rest =>
      match test c with
      | inl e => inl e
      | inr keep_it =>
          match filter test rest with
          | inl e => inl e
          | inr kept => inr (if keep_it then c :: kept else kept)
          end
      end
  end.

(** [searchContacts]: the list that is handed to
    [UIManager.displayContacts]. *)
Definition searchContacts (contacts : list json) (query : string)
  : exn + list json :=
  if trim query =? EmptyString then inr contacts
  else filter (matches query) contacts.

(** What [fetch] gives: it rejects (a [TypeError]: no network, or the
    answer is blocked), or resolves with a status, a status text and a
    body. *)
Inductive fetched :=
  | Rejected
  | Resolved (status : Z) (statusText : string) (text : string).

(** [response.ok]. *)
Definition response_ok (status : Z) : bool :=
  ((200 <=? status) && (status <=? 299))%Z.

(** What the user is told: [MessageHandler.showSuccess] (after which the
    form is reset and a reload is scheduled) or [MessageHandler.showError]. *)
Inductive notice :=
  | ShowSuccess (message : string)
  | ShowError (message : string).

Definition msg_cors : string :=
  "Error de CORS. Verifica la configuraci" ++ str1 "243"%char
    ++ "n del servidor o usa un proxy CORS.".

(** The [catch] of [addContact] on an [Error] with the given message. *)
Definition add_failed (message : string) : notice :=
  if includes message "CORS" || includes message "fetch"
  then ShowError msg_cors
  else ShowError ("Error al agregar contacto: " ++ message).

(** [addContact], given what its [fetch] gives. *)
Definition addContact (contactData : contactData) (f : fetched) : notice :=
  match f with
  | Rejected => ShowError msg_cors
  | Resolved status statusText text =>
      if negb (response_ok status) then
        add_failed ("Error HTTP: " ++ JS.Number_toString status
                      ++ " - " ++ statusText)
      else if includes (toLowerCase text) "error" then add_failed text
      else
        ShowSuccess ("Contacto " ++ str1 dquote ++ nombre contactData ++ " "
                       ++ apellido contactData ++ str1 dquote
                       ++ " agregado exitosamente")
  end.

(** The state that [loadContacts] reads and writes: [this.contacts] and
    the global [isLoading]. *)
Record view := {
  contacts : list json;
  isLoading : bool
}.

(** [loadContacts], given what its [fetch] gives: the state it leaves.
    [this.contacts] is assigned only when the answer is ok, parses and is
    an array; [isLoading] is cleared in the [finally]. *)
Definition loadContacts (st : view) (f : fetched) : view :=
  if isLoading st then st
  else
    match f with
    | Rejected => {| contacts := contacts st; isLoading := false |}
    | Resolved status statusText text =>
        if negb (response_ok status)
        then {| contacts := contacts st; isLoading := false |}
        else
          match JSON.parse text with
          | inr (JArr data) => {| contacts := data; isLoading := false |}
          | _ => {| contacts := contacts st; isLoading := false |}
          end
    end.

End Client.

(** What a response of the backend is on the network: [res.json] sends
    [JSON.stringify (v)], [res.send] the text; the status text is chosen
    by the transport. *)
Definition on_the_wire (statusText : string) (r : response) : Client.fetched :=
  Client.Resolved (status r) statusText
    match body r with
    | Json v => JSON.stringify v
    | Send text => text
    end.

(** ** Vocabulary of the statements *)

(** Induction on a value with the hypothesis for every item of an array
    and every property value of an object. *)
Definition json_ind (P : json -> Prop)
    (Hnull : P JNull)
    (Hbool : forall b, P (JBool b))
    (Hnum : forall x, P (JNum x))
    (Hstr : forall s, P (JStr s))
    (Hwide : forall units, P (JWide units))
    (Harr : forall items, Forall P items -> P (JArr items))
    (Hobj : forall props, Forall (fun p => P (snd p)) props -> P (JObj props))
    (Hwobj : forall props, Forall (fun p => P (snd p)) props -> P (JWObj props))
  : forall v, P v :=
  fix go (v : json) : P v :=
    match v with
    | JNull => Hnull
    | JBool b => Hbool b
    | JNum x => Hnum x
    | JStr s => Hstr s
    | JWide units => Hwide units
    | JArr items =>
        Harr items
          ((fix all (l : list json) : Forall P l :=
              match l with
              | [] => Forall_nil _
              | x :: l' => Forall_cons x (go x) (all l')
              end) items)
    | JObj props =>
        Hobj props
          ((fix all (l : list (string * json))
              : Forall (fun p => P (snd p)) l :=
              match l with
              | [] => Forall_nil _
              | p :: l' => Forall_cons p (go (snd p)) (all l')
              end) props)
    | JWObj props =>
        Hwobj props
          ((fix all (l : list (list N * json))
              : Forall (fun p => P (snd p)) l :=
              match l with
              | [] => Forall_nil _
              | p :: l' => Forall_cons p (go (snd p)) (all l')
              end) props)
    end.

Fixpoint distinct (ks : list string) : bool :=
  match ks with
  | [] => true
  | k :: ks' => negb (existsb (String.eqb k) ks') && distinct ks'
  end.

(** The keys stand in the order of the own properties of an object: none
    of them should stand before one that precedes it. *)
Fixpoint in_order (ks : list string) : bool :=
  match ks with
  | [] => true
  | k :: ks' =>
      forallb (fun k' => negb (JS.before (JS.array_index k') (JS.array_index k))) ks'
      && in_order ks'
  end.

(** The values that JSON text gives back as they are: the strings are of
    the alphabet of the model, the numbers are integers up to [2^53], and
    the properties of every object have different names and stand in the
    order of JavaScript. *)
Fixpoint wf (v : json) : bool :=
  match v with
  | JNum (Whole n) => Number.safe n
  | JNum _ => false
  | JWide _ => false
  | JWObj _ => false
  | JArr items => forallb wf items
  | JObj props =>
      distinct (map fst props) && in_order (map fst props)
      && forallb (fun p => wf (snd p)) props
  | _ => true
  end.

(** The number of nested parser calls a value needs. *)
Fixpoint weight (v : json) : nat :=
  match v with
  | JArr items => S (fold_right (fun x n => S (weight x + n)) 0 items)
  | JObj props => S (fold_right (fun p n => S (weight (snd p) + n)) 0 props)
  | JWObj props => S (fold_right (fun p n => S (weight (snd p) + n)) 0 props)
  | _ => 1
  end.

(** A value can only be followed by the end of the text, white space, a
    comma or a closing bracket or brace. *)
Definition terminated (rest : string) : bool :=
  match rest with
  | EmptyString => true
  | String c _ =>
      JSON.is_ws c || (c =? ",")%char || (c =? "]")%char || (c =? "}")%char
  end.

(** The characters a serialized value can start with. *)
Definition value_start (c : ascii) : bool :=
  (c =? "[")%char || (c =? "{")%char || (c =? Text.dquote)%char
  || (c =? "n")%char || (c =? "t")%char || (c =? "f")%char
  || (c =? "-")%char || Text.is_digit c.

(** [v] is read back from its serialization, whatever the depth, the gap
    and the text that follows. *)
Definition reads_back (v : json) : Prop :=
  forall p k fuel rest,
    weight v <= fuel -> terminated rest = true ->
    JSON.parse_value fuel (JSON.serialize p k v ++ rest) = Some (v, rest).

(** The parser has read [v] and left [r] without looking past the end of
    the text: the end of a number is known only from what follows it. *)
Definition ends_cleanly (v : json) (r : string) : Prop :=
  match v with
  | JNum _ => r <> EmptyString
  | _ => True
  end.

Definition items_weight (items : list json) : nat :=
  fold_right (fun x n => S (weight x + n)) 0 items.

Definition props_weight (props : list (string * json)) : nat :=
  fold_right (fun p n => S (weight (snd p) + n)) 0 props.

(** The members of an object with their keys as lists of code units. *)
Definition with_units (props : list (string * json)) : list (list N * json) :=
  map (fun m => (JS.units_of (fst m), snd m)) props.

(** One member of an object, as [serialize] writes it. *)
Definition member (p : bool) (k : nat) (m : string * json) : string :=
  JSON.QuoteJSONString (fst m) ++ JSON.colon p ++ JSON.serialize p k (snd m).

(** The property [k] of [v] is present and not empty (it is truthy). *)
Definition has (v : json) (k : string) : bool :=
  match JS.get v k with
  | inr x => JS.truthy x
  | inl _ => false
  end.

(** A create request that passes the validation of the route. *)
Definition valid_request (req_body : json) : bool :=
  has req_body "nombre" && has req_body "apellido" && has req_body "telefono".

(** The property [k] of [v] is missing or is the empty string. *)
Definition missing_or_empty (v : json) (k : string) : bool :=
  match JS.get v k with
  | inr None => true
  | inr (Some (JStr s)) => s =? EmptyString
  | _ => false
  end.

(** The responses of the two routes. *)
Definition ok (v : json) : response := {| status := 200; body := Json v |}.

Definition created : response :=
  {| status := 201; body := Send "Contacto agregado exitosamente" |}.

Definition bad_request : response :=
  {| status := 400;
     body := Json (message
       "Faltan campos obligatorios: nombre, apellido o telefono.") |}.

(** The record that a successful create appends: the request body with
    its [id] set from the clock. *)
Definition stamped (now : Z) (o : list (string * json)) : json :=
  JObj (JS.update "id" (JStr (JS.Number_toString now)) o).

(** The data file after a write of [contacts]. *)
Definition saved (contacts : json) (w : world) : world :=
  {| disk := Regular (JSON.stringify2 contacts);
     write_fault := write_fault w;
     clock := clock w |}.

(** The data file after a write of [contacts] that failed when [written]
    characters were on it. *)
Definition cut (written : nat) (contacts : json) (w : world) : world :=
  {| disk := Regular (substring 0 written (JSON.stringify2 contacts));
     write_fault := write_fault w;
     clock := clock w |}.

(** The request body with its [id] set from the clock, whatever the body. *)
Definition stamp (now : Z) (req_body : json) : json :=
  match JS.set req_body "id" (JStr (JS.Number_toString now)) with
  | inr c => c
  | inl _ => req_body
  end.

(** What the server checks of a stored contact: the four fields are
    present and not empty. *)
Definition stored_ok (c : json) : bool :=
  has c "id" && has c "nombre" && has c "apellido" && has c "telefono".

(** A stored contact that passes that check and is made of values that
    JSON text gives back as they are. *)
Definition kept_ok (c : json) : bool := stored_ok c && wf c.

(** No write to the data file stops half way. *)
Definition uncut (w : world) : Prop :=
  forall code written, write_fault w <> Some (FailsAfterOpen code written).

(** The digit-count bound of the data model on the [telefono] field. *)
Definition phone_in_bound (c : json) : bool :=
  match JS.get c "telefono" with
  | inr (Some (JStr p)) =>
      let digits := String.length (Text.strip_non_digits p) in
      (7 <=? digits)%nat && (digits <=? 15)%nat
  | _ => false
  end.

(** The invariant on a stored contact in the words of the specification:
    a non-empty id, nombre and apellido, and a telefono within the
    digit-count bound. *)
Definition spec_contact_ok (c : json) : bool :=
  has c "id" && has c "nombre" && has c "apellido" && phone_in_bound c.

(** A stored contact that satisfies that invariant and is made of values
    that JSON text gives back as they are. *)
Definition bounded_ok (c : json) : bool := spec_contact_ok c && wf c.

(** Every contact of the persisted collection satisfies [P]. *)
Definition store_inv (P : json -> bool) (w : world) : Prop :=
  forall cs w', readContacts w = (inr (JArr cs), w') -> forallb P cs = true.

(** Sample inputs: an empty store at some time of day, two requests and
    a form. *)
Definition empty_world : world :=
  {| disk := Absent; write_fault := None; clock := 1700000000000 |}.

Definition ana : json :=
  JObj [ ("nombre", JStr "Ana"); ("apellido", JStr "Diaz");
         ("telefono", JStr "8095550001") ].

Definition luis : json :=
  JObj [ ("nombre", JStr "Luis"); ("apellido", JStr "Mora");
         ("telefono", JStr "8095550002") ].

Definition no_nombre : json :=
  JObj [ ("nombre", JStr EmptyString); ("apellido", JStr "Perez");
         ("telefono", JStr "8091234567") ].

(** A data file that does not hold JSON, and one that cannot be read. *)
Definition garbled_world : world :=
  {| disk := Regular "{ nombre: Juan"; write_fault := None; clock := 0 |}.

Definition denied_world : world :=
  {| disk := Unreadable EACCES; write_fault := Some (FailsAtOpen EACCES);
     clock := 0 |}.

(** A request whose telefono has no digit at all. *)
Definition no_digits : json :=
  JObj [ ("nombre", JStr "Ana"); ("apellido", JStr "Diaz");
         ("telefono", JStr "abc") ].

(** The form of the scenario, and the record it leads to. *)
Definition juan_form : Agenda.FormData :=
  {| Agenda.get_nombre := Some "Juan";
     Agenda.get_apellido := Some "Perez";
     Agenda.get_telefono := Some "809-123-4567" |}.

(** The request of the scenario as a client of the API would send it. *)
Definition juan_request : json :=
  JObj [ ("nombre", JStr "Juan"); ("apellido", JStr "Perez");
         ("telefono", JStr "809-123-4567") ].

Definition juan_props : list (string * json) :=
  [ ("nombre", JStr "Juan"); ("apellido", JStr "Perez");
    ("telefono", JStr "8091234567") ].

Definition juan_stored (now : Z) : json :=
  JObj [ ("nombre", JStr "Juan"); ("apellido", JStr "Perez");
         ("telefono", JStr "8091234567");
         ("id", JStr (JS.Number_toString now)) ].

(** The rule on names in the words of the specification: letters
    (accented letters included), spaces, hyphens and apostrophes only,
    length 2 to 50.  A letter is a letter of the Latin alphabet, with or
    without an accent (A-Z, a-z and the letters of U+00C0..U+00FF). *)
Definition spec_letter (c : ascii) : bool :=
  Text.between 65 90 c || Text.between 97 122 c
  || Text.between 192 214 c || Text.between 216 246 c
  || Text.between 248 255 c.

Definition spec_name_char (c : ascii) : bool :=
  spec_letter c || (c =? " ")%char || (c =? "-")%char || (c =? "'")%char.

Definition spec_name_rule (n : string) : bool :=
  negb (n =? EmptyString) && Text.all spec_name_char n
  && (2 <=? String.length n)%nat && (String.length n <=? 50)%nat.

(** The name "Zoe" with a diaeresis on the e (U+00EB). *)
Definition zoe : string := String "Z" (String "o" (String "235" EmptyString)).

(** The letters that [nameRegex] lists: a-z, A-Z and fourteen accented
    letters of Spanish. *)
Definition listed_letter (c : ascii) : Prop :=
  (97 <= Text.code c <= 122)%N \/ (65 <= Text.code c <= 90)%N
  \/ In c Validator.accented.

(** Vocabulary of the further properties. *)

Definition not_space (c : ascii) : bool := negb (Text.is_space c).

(** Every white-space character of [s] is a space that follows a
    character that is not white space and is followed by one;
    [after_space] tells that the text before [s] ends with a space (or is
    empty). *)
Fixpoint single_spaced (after_space : bool) (s : string) : bool :=
  match s with
  | EmptyString => negb after_space
  | String c r =>
      if Text.is_space c
      then (c =? Text.SP)%char && negb after_space && single_spaced true r
      else single_spaced false r
  end.

(** Text without white space at either end and with single spaces only
    between its words. *)
Definition tidy (s : string) : bool :=
  match s with
  | EmptyString => true
  | _ => single_spaced true s
  end.

(** [q] occurs in [s]. *)
Definition occurs (s q : string) : Prop := exists a b, s = a ++ q ++ b.

(** The text of the field [k] of a contact: its value when that is a
    string, the empty string otherwise. *)
Definition text_of (contact : json) (k : string) : string :=
  match JS.get contact k with
  | inr (Some (JStr s)) => s
  | _ => EmptyString
  end.

(** The field [k] of a contact is missing, falsy or a string. *)
Definition plain_field (contact : json) (k : string) : bool :=
  match JS.get contact k with
  | inl _ => false
  | inr (Some (JStr _)) => true
  | inr v => negb (JS.truthy v)
  end.

(** A contact whose three fields are plain. *)
Definition plain (contact : json) : bool :=
  plain_field contact "nombre" && plain_field contact "apellido"
  && plain_field contact "telefono".

(** The test of [searchContacts] on a plain contact: the query, in lower
    case, is looked for in the nombre and the apellido in lower case, and
    as it is in the telefono. *)
Definition hit (query : string) (contact : json) : bool :=
  JSString.includes (JSString.toLowerCase (text_of contact "nombre"))
    (JSString.toLowerCase query)
  || JSString.includes (JSString.toLowerCase (text_of contact "apellido"))
       (JSString.toLowerCase query)
  || JSString.includes (text_of contact "telefono") query.

(** The answers of the two routes when something is thrown. *)
Definition list_failed : response :=
  {| status := 500;
     body := Json (message
       "Error interno del servidor al obtener contactos.") |}.

Definition create_failed : response :=
  {| status := 500;
     body := Json (message
       "Error interno del servidor al agregar contacto.") |}.

(** A data file that holds JSON which is not an array. *)
Definition object_world : world :=
  {| disk := Regular "{}"; write_fault := None; clock := 0 |}.

(** A form with stray white space, and a client that holds no contact. *)
Definition maria_form : Agenda.FormData :=
  {| Agenda.get_nombre := Some "  Maria   Jose ";
     Agenda.get_apellido := Some "De  la Cruz";
     Agenda.get_telefono := Some "+1 (809) 555-0003" |}.

Definition fresh_view : Client.view :=
  {| Client.contacts := []; Client.isLoading := false |}.

(** ** Facts about text *)

Module TextFacts.
Import Text.

Lemma app_assoc (a b c : string) : (a ++ b) ++ c = a ++ (b ++ c).
Proof. induction a as [|x a IH]; simpl; [reflexivity | now rewrite IH]. Qed.

Lemma app_nil_r (a : string) : a ++ EmptyString = a.
Proof. induction a as [|x a IH]; simpl; [reflexivity | now rewrite IH]. Qed.

Lemma length_app (a b : string) :
  String.length (a ++ b) = String.length a + String.length b.
Proof. induction a as [|x a IH]; simpl; [reflexivity | now rewrite IH]. Qed.

Lemma eqb_empty_false c s : (String c s =? EmptyString) = false.
Proof. reflexivity. Qed.

Lemma keep_all p s : all p (keep p s) = true.
Proof.
  induction s as [|c s IH]; simpl; [reflexivity|].
  destruct (p c) eqn:E; simpl; [rewrite E|]; exact IH.
Qed.

Lemma all_spec p s :
  all p s = true <->
  (forall c, In c (list_ascii_of_string s) -> p c = true).
Proof.
  induction s as [|x s IH]; simpl.
  - split; [intros _ c [] | reflexivity].
  - rewrite andb_true_iff, IH. split.
    + intros [Hx Hs] c [<-|Hc]; auto.
    + intros H; split; [apply H; now left | intros c Hc; apply H; now right].
Qed.

End TextFacts.

(** ** Integers among the doubles *)

Module NumberFacts.
Import Number.
Local Open Scope Z_scope.

Lemma half_even_one a : half_even a 1 = a.
Proof. unfold half_even. now rewrite Z.div_1_r, Z.mod_1_r. Qed.

Lemma floor_log2_one n : 0 < n -> floor_log2 n 1 = Z.log2 n.
Proof.
  intros H. unfold floor_log2. change (Z.log2 1) with 0. rewrite Z.sub_0_r.
  pose proof (Z.log2_nonneg n) as H0.
  destruct (Z.log2_spec n H) as [L _].
  apply Z.leb_le in H0. rewrite H0, Z.mul_1_l.
  apply Z.leb_le in L. now rewrite L.
Qed.

Lemma dyadic_scaled n k : 0 < n -> 0 < k -> dyadic (n * 2 ^ k) (- k) = Whole n.
Proof.
  intros Hn Hk. unfold dyadic.
  destruct (0 <=? - k) eqn:E; [apply Z.leb_le in E; lia|].
  rewrite Z.opp_involutive.
  assert (Hp : 0 < 2 ^ k) by (apply Z.pow_pos_nonneg; lia).
  assert (G : Z.gcd (n * 2 ^ k) (2 ^ k) = 2 ^ k).
  { rewrite Z.gcd_comm, Z.mul_comm. apply Z.gcd_mul_diag_l. lia. }
  cbv zeta. rewrite G, Z.div_same by lia. now rewrite Z.div_mul by lia.
Qed.

(** An integer up to [2^53] is the double nearest to itself. *)
Lemma nearest_safe n : 0 < n -> n <= 2 ^ 53 -> nearest n 1 = Whole n.
Proof.
  intros Hn Hs. unfold nearest.
  destruct (n =? 0) eqn:E; [apply Z.eqb_eq in E; lia|].
  rewrite floor_log2_one by exact Hn.
  pose proof (Z.log2_nonneg n) as H0.
  assert (H53 : Z.log2 n <= 53).
  { rewrite <- (Z.log2_pow2 53) by lia. now apply Z.log2_le_mono. }
  rewrite Z.max_l by lia. cbv zeta.
  destruct (Z_lt_le_dec (Z.log2 n) 52) as [Hlt|Hge].
  - destruct (0 <=? Z.log2 n - 52) eqn:Eq; [apply Z.leb_le in Eq; lia|].
    cbn [andb]. rewrite half_even_one.
    replace (Z.log2 n - 52) with (- (52 - Z.log2 n)) by lia.
    rewrite Z.opp_involutive. apply dyadic_scaled; lia.
  - destruct (Z.eq_dec (Z.log2 n) 52) as [E52|N52].
    + rewrite E52. change (52 - 52) with 0.
      change (0 <=? 0) with true. cbv iota.
      change (1 * 2 ^ 0) with 1. rewrite half_even_one.
      assert (Hbig : (2 ^ 1024 <=? n * 2 ^ 0) = false).
      { apply Z.leb_gt. change (2 ^ 0) with 1. rewrite Z.mul_1_r.
        apply Z.le_lt_trans with (2 ^ 53); [exact Hs|].
        apply Z.pow_lt_mono_r; lia. }
      rewrite Hbig. cbn [andb]. unfold dyadic.
      change (0 <=? 0) with true. cbv iota.
      change (2 ^ 0) with 1. now rewrite Z.mul_1_r.
    + assert (E53 : Z.log2 n = 53) by lia.
      assert (n = 2 ^ 53).
      { destruct (Z.log2_spec n Hn) as [L _]. rewrite E53 in L. lia. }
      subst n. vm_compute. reflexivity.
Qed.

(** On an integer up to [2^53] in absolute value the rounding gives the
    integer: the shortcut of [of_decimal] returns what the rounding
    would. *)
Lemma of_decimal_shortcut m e :
  m <> 0 -> 0 <= e -> safe (m * 10 ^ e) = true ->
  (let (c, d) := times_pow10 (Z.abs m) e in
   if m <? 0 then opposite (nearest c d) else nearest c d)
  = Whole (m * 10 ^ e).
Proof.
  intros Hm He Hs. unfold times_pow10.
  apply Z.leb_le in He. rewrite He.
  unfold safe in Hs. apply Z.leb_le in Hs.
  assert (Hp : 0 < 10 ^ e) by (apply Z.pow_pos_nonneg; [lia | now apply Z.leb_le]).
  rewrite Z.abs_mul, (Z.abs_eq (10 ^ e)) in Hs by lia.
  rewrite nearest_safe by (try exact Hs; apply Z.mul_pos_pos; lia).
  destruct (m <? 0) eqn:E.
  - apply Z.ltb_lt in E. cbn [opposite].
    now rewrite Z.abs_neq, Z.mul_opp_l, Z.opp_involutive by lia.
  - apply Z.ltb_ge in E. now rewrite Z.abs_eq by lia.
Qed.

End NumberFacts.

(** ** The parser reads back what the serializer writes *)

Module JSONFacts.
Import Text TextFacts JSON.

Ltac each_char c :=
  destruct c as [[|] [|] [|] [|] [|] [|] [|] [|]].

(** *** White space *)

Lemma skip_ws_indent k s : skip_ws (indent k ++ s) = skip_ws s.
Proof. induction k as [|k IH]; simpl; [reflexivity | exact IH]. Qed.

Lemma skip_ws_newline p k s : skip_ws (newline p k ++ s) = skip_ws s.
Proof.
  destruct p; simpl; [|reflexivity].
  apply skip_ws_indent.
Qed.

Lemma skip_ws_start c s : value_start c = true -> skip_ws (String c s) = String c s.
Proof.
  intros H. unfold skip_ws. simpl.
  replace (is_ws c) with false; [reflexivity|].
  revert H. each_char c; try reflexivity; discriminate.
Qed.

Lemma skip_ws_if_not_ws c s : is_ws c = false -> skip_ws (String c s) = String c s.
Proof. intros H. unfold skip_ws. simpl. now rewrite H. Qed.

Lemma parse_value_ws fuel s1 s2 :
  skip_ws s1 = skip_ws s2 -> parse_value fuel s1 = parse_value fuel s2.
Proof. intros H. destruct fuel; simpl; [reflexivity | now rewrite H]. Qed.

Lemma parse_elements_ws fuel s1 s2 :
  skip_ws s1 = skip_ws s2 -> parse_elements fuel s1 = parse_elements fuel s2.
Proof.
  intros H. destruct fuel; simpl; [reflexivity|].
  now rewrite (parse_value_ws fuel s1 s2 H).
Qed.

Lemma parse_members_ws fuel s1 s2 :
  skip_ws s1 = skip_ws s2 -> parse_members fuel s1 = parse_members fuel s2.
Proof. intros H. destruct fuel; simpl; [reflexivity | now rewrite H]. Qed.

(** *** Strings *)

Lemma parse_quote_char c s :
  parse_string (quote_char c ++ s) = cons_unit (code c) (parse_string s).
Proof. each_char c; reflexivity. Qed.

Lemma parse_quote_body s rest :
  parse_string (quote_body s ++ String dquote rest)
  = Some (JS.units_of s, rest).
Proof.
  induction s as [|c s IH]; simpl; [reflexivity|].
  now rewrite app_assoc, parse_quote_char, IH.
Qed.

Lemma narrow_units_of s : JS.narrow (JS.units_of s) = Some s.
Proof.
  induction s as [|c s IH]; [reflexivity|].
  unfold JS.units_of in *. cbn [list_ascii_of_string map JS.narrow].
  rewrite IH, ascii_N_embedding.
  pose proof (N_ascii_bounded c) as Hc.
  apply N.ltb_lt in Hc. now rewrite Hc.
Qed.

Lemma text_value_units_of s : text_value (JS.units_of s) = JStr s.
Proof. unfold text_value. now rewrite narrow_units_of. Qed.

Lemma parse_QuoteJSONString s rest :
  exists body,
    QuoteJSONString s ++ rest = String dquote body
    /\ parse_string body = Some (JS.units_of s, rest).
Proof.
  exists (quote_body s ++ String dquote rest). split.
  - unfold QuoteJSONString. simpl. now rewrite app_assoc.
  - apply parse_quote_body.
Qed.

(** *** Numbers *)

Lemma terminated_no_digit rest :
  terminated rest = true -> span_digits rest = (EmptyString, rest).
Proof.
  destruct rest as [|c r]; [reflexivity|].
  simpl. each_char c; try discriminate; reflexivity.
Qed.

Lemma terminated_no_fraction rest :
  terminated rest = true -> parse_fraction rest = Some (EmptyString, rest).
Proof.
  destruct rest as [|c r]; [reflexivity|].
  simpl. each_char c; try discriminate; reflexivity.
Qed.

Lemma terminated_no_exponent rest :
  terminated rest = true -> parse_exponent rest = Some (0%Z, rest).
Proof.
  destruct rest as [|c r]; [reflexivity|].
  simpl. each_char c; try discriminate; reflexivity.
Qed.

Lemma span_digits_uint d rest :
  terminated rest = true ->
  span_digits (NilEmpty.string_of_uint d ++ rest)
  = (NilEmpty.string_of_uint d, rest).
Proof.
  intros H. induction d; simpl; try rewrite IHd; try reflexivity.
  now apply terminated_no_digit.
Qed.

(** The decimal digits of a positive number do not start with a zero. *)
Lemma to_uint_head p :
  match Pos.to_uint p with
  | Decimal.Nil | Decimal.D0 _ => False
  | _ => True
  end.
Proof.
  pose proof (Unsigned.to_of (Pos.to_uint p)) as H.
  rewrite Unsigned.of_to in H. simpl in H.
  pose proof (Unsigned.to_uint_nonzero p) as Hz.
  pose proof (Unsigned.to_uint_nonnil p) as Hn.
  destruct (Pos.to_uint p) as [|d| | | | | | | | | ]; try exact I.
  - now apply Hn.
  - rewrite unorm_D0 in H. unfold Decimal.unorm in H.
    destruct (Decimal.nzhead d) eqn:E; try discriminate.
    + apply Hz. now rewrite <- H.
    + inversion H; subst. now apply nzhead_nonzero in E.
Qed.

Lemma digits_head p :
  let ds := NilEmpty.string_of_uint (Pos.to_uint p) in
  (ds =? EmptyString) || leading_zero ds = false.
Proof.
  pose proof (to_uint_head p) as Hd.
  destruct (Pos.to_uint p) as [|d|d|d|d|d|d|d|d|d|d]; try contradiction;
    destruct d; reflexivity.
Qed.

(** A safe integer written without fraction and exponent denotes
    itself. *)
Lemma of_decimal_safe m :
  Number.safe m = true -> Number.of_decimal m 0 = Whole m.
Proof.
  intros H. unfold Number.of_decimal.
  destruct (m =? 0)%Z eqn:E.
  - apply Z.eqb_eq in E. now subst.
  - rewrite Z.pow_0_r, Z.mul_1_r, H. reflexivity.
Qed.

Lemma parse_unsigned_pos negative p rest :
  terminated rest = true ->
  Number.safe (Z.pos p) = true ->
  parse_unsigned negative (NilEmpty.string_of_uint (Pos.to_uint p) ++ rest)
  = Some (Whole (if negative then Z.neg p else Z.pos p), rest).
Proof.
  intros H Hs. unfold parse_unsigned.
  rewrite span_digits_uint by assumption.
  rewrite digits_head.
  rewrite (terminated_no_fraction _ H), (terminated_no_exponent _ H).
  rewrite app_nil_r. unfold digits_value. rewrite NilEmpty.usu.
  replace (Z.of_uint (Pos.to_uint p)) with (Z.pos p)
    by (unfold Z.of_uint; now rewrite Unsigned.of_to).
  cbn [String.length Z.of_nat Z.sub Z.opp].
  rewrite of_decimal_safe; [reflexivity|].
  now destruct negative.
Qed.

Lemma string_of_pos p :
  NilZero.string_of_uint (Pos.to_uint p) = NilEmpty.string_of_uint (Pos.to_uint p).
Proof.
  pose proof (Unsigned.to_uint_nonnil p).
  now destruct (Pos.to_uint p).
Qed.

(** The text of a number starts with a digit or a minus sign. *)
Lemma Number_toString_start n :
  exists c s, JS.Number_toString n = String c s
              /\ ((c =? "-")%char || is_digit c) = true.
Proof.
  unfold JS.Number_toString.
  destruct n as [|p|p]; simpl.
  - now exists "0"%char, EmptyString.
  - rewrite string_of_pos. pose proof (to_uint_head p) as Hd.
    destruct (Pos.to_uint p); try contradiction; simpl; eauto.
  - eexists _, _; split; reflexivity.
Qed.

(** JSON writes a safe integer digit for digit. *)
Lemma number_text_safe n :
  Number.safe n = true -> number_text (Whole n) = JS.Number_toString n.
Proof.
  intros H. unfold number_text, Number.toString, Number.finite.
  now rewrite H.
Qed.

Lemma parse_number_toString n rest :
  terminated rest = true ->
  Number.safe n = true ->
  parse_number (JS.Number_toString n ++ rest) = Some (Whole n, rest).
Proof.
  intros H Hs. unfold JS.Number_toString.
  destruct n as [|p|p]; simpl.
  - unfold parse_unsigned. simpl.
    rewrite (terminated_no_digit _ H). cbn [eqb leading_zero orb Ascii.eqb].
    rewrite (terminated_no_fraction _ H), (terminated_no_exponent _ H).
    reflexivity.
  - rewrite string_of_pos.
    pose proof (parse_unsigned_pos false p rest H Hs) as Hp.
    pose proof (to_uint_head p) as Hd.
    destruct (Pos.to_uint p); try contradiction; exact Hp.
  - rewrite string_of_pos. now apply parse_unsigned_pos.
Qed.

(** *** Values *)

Lemma value_start_facts c :
  value_start c = true ->
  is_ws c = false /\ (c =? "]")%char = false /\ (c =? "}")%char = false
  /\ (c =? ",")%char = false.
Proof. each_char c; try discriminate; repeat split; reflexivity. Qed.

Lemma serialize_start p k v :
  wf v = true ->
  exists c s, serialize p k v = String c s /\ value_start c = true.
Proof.
  destruct v as [|[|]|[n|m j|neg]|s|u|[|x l]|[|x l]|ps]; try discriminate;
    intros Hwf; cbn [serialize]; unfold QuoteJSONString; cbn [append]; eauto.
  cbn [wf] in Hwf. rewrite (number_text_safe n Hwf).
  destruct (Number_toString_start n) as (c & s & -> & H).
  exists c, s. split; [reflexivity|].
  revert H. each_char c; try discriminate; reflexivity.
Qed.

Lemma parse_value_number fuel c s :
  ((c =? "-")%char || is_digit c) = true ->
  parse_value (S fuel) (String c s)
  = match parse_number (String c s) with
    | Some (n, rest) => Some (JNum n, rest)
    | None => None
    end.
Proof. each_char c; try discriminate; reflexivity. Qed.

Lemma serialize_arr p k x l :
  serialize p k (JArr (x :: l))
  = String "[" (newline p (S k)
      ++ String.concat (separator p (S k)) (map (serialize p (S k)) (x :: l))
      ++ newline p k ++ "]").
Proof. reflexivity. Qed.

Lemma serialize_obj p k x l :
  serialize p k (JObj (x :: l))
  = String "{" (newline p (S k)
      ++ String.concat (separator p (S k)) (map (member p (S k)) (x :: l))
      ++ newline p k ++ "}").
Proof. reflexivity. Qed.

Lemma concat_cons sep a b l :
  String.concat sep (a :: b :: l) = a ++ sep ++ String.concat sep (b :: l).
Proof. reflexivity. Qed.

Lemma terminated_newline p k c rest :
  terminated (String c rest) = true ->
  terminated (newline p k ++ String c rest) = true.
Proof. destruct p; simpl; auto. Qed.

Lemma parse_elements_concat p k items :
  Forall reads_back items ->
  forall fuel rest,
    items <> [] -> items_weight items <= fuel ->
    parse_elements fuel
      (String.concat (separator p (S k)) (map (serialize p (S k)) items)
         ++ newline p k ++ String "]" rest)
    = Some (items, rest).
Proof.
  induction 1 as [|x l Hx Hl IH]; intros fuel rest Hne Hw; [congruence|].
  destruct fuel as [|fuel]; [simpl in Hw; lia|].
  simpl in Hw. fold (items_weight l) in Hw.
  destruct l as [|y l].
  - cbn [map String.concat parse_elements].
    rewrite (Hx p (S k) fuel) by (try lia; now apply terminated_newline).
    rewrite skip_ws_newline. reflexivity.
  - cbn [map]. rewrite concat_cons, !app_assoc.
    cbn [parse_elements].
    rewrite (Hx p (S k) fuel) by (try lia; reflexivity).
    unfold separator at 1. cbn [append skip_ws drop_while is_ws].
    cbn -[parse_elements newline String.concat].
    rewrite (parse_elements_ws fuel _ _ (skip_ws_newline p (S k) _)).
    change (serialize p (S k) y :: map (serialize p (S k)) l)
      with (map (serialize p (S k)) (y :: l)).
    rewrite IH by (try discriminate; lia). reflexivity.
Qed.

Lemma parse_members_concat p k props :
  Forall (fun m => reads_back (snd m)) props ->
  forall fuel rest,
    props <> [] -> props_weight props <= fuel ->
    parse_members fuel
      (String.concat (separator p (S k)) (map (member p (S k)) props)
         ++ newline p k ++ String "}" rest)
    = Some (with_units props, rest).
Proof.
  induction 1 as [|[key v] l Hx Hl IH]; intros fuel rest Hne Hw; [congruence|].
  destruct fuel as [|fuel]; [simpl in Hw; lia|].
  simpl in Hw, Hx. fold (props_weight l) in Hw.
  destruct l as [|y l].
  - cbn [map String.concat]. unfold member. cbn [fst snd].
    rewrite !app_assoc.
    destruct (parse_QuoteJSONString key
      (colon p ++ serialize p (S k) v ++ newline p k ++ String "}" rest))
      as (body & -> & Hbody).
    cbn -[parse_value parse_string newline colon].
    rewrite Hbody.
    assert (Hc : forall t, skip_ws (colon p ++ t) = String ":" (if p then String SP t else t))
      by (now destruct p).
    rewrite Hc.
    cbn -[parse_value parse_string newline colon].
    rewrite (parse_value_ws fuel _ (serialize p (S k) v ++ newline p k ++ String "}" rest))
      by (now destruct p).
    rewrite (Hx p (S k) fuel) by (try lia; now apply terminated_newline).
    rewrite skip_ws_newline. reflexivity.
  - cbn [map]. rewrite concat_cons. unfold member at 1. cbn [fst snd].
    rewrite !app_assoc.
    destruct (parse_QuoteJSONString key
      (colon p ++ serialize p (S k) v ++ separator p (S k)
         ++ String.concat (separator p (S k)) (member p (S k) y :: map (member p (S k)) l)
         ++ newline p k ++ String "}" rest))
      as (body & -> & Hbody).
    cbn -[parse_value parse_string newline colon String.concat separator].
    rewrite Hbody.
    assert (Hc : forall t, skip_ws (colon p ++ t) = String ":" (if p then String SP t else t))
      by (now destruct p).
    rewrite Hc.
    cbn -[parse_value parse_string newline colon String.concat separator].
    rewrite (parse_value_ws fuel _
               (serialize p (S k) v ++ separator p (S k)
                  ++ String.concat (separator p (S k)) (member p (S k) y :: map (member p (S k)) l)
                  ++ newline p k ++ String "}" rest))
      by (now destruct p).
    rewrite (Hx p (S k) fuel) by (try lia; reflexivity).
    unfold separator at 1.
    cbn -[parse_value parse_string newline colon String.concat separator].
    rewrite (parse_members_ws fuel _ _ (skip_ws_newline p (S k) _)).
    change (member p (S k) y :: map (member p (S k)) l)
      with (map (member p (S k)) (y :: l)).
    rewrite IH by (try discriminate; lia). reflexivity.
Qed.

(** *** Objects without repeated keys are rebuilt as they are *)

Lemma narrow_keys_with_units props :
  narrow_keys (with_units props) = Some props.
Proof.
  induction props as [|[k v] props IH]; [reflexivity|].
  cbn [with_units map narrow_keys fst snd].
  fold (with_units props). now rewrite narrow_units_of, IH.
Qed.

Lemma object_value_with_units props :
  object_value (with_units props) = JObj (build_object props).
Proof. unfold object_value. now rewrite narrow_keys_with_units. Qed.

Lemma find_fresh k acc :
  existsb (String.eqb k) (map fst acc) = false ->
  JS.find String.eqb k acc = None.
Proof.
  induction acc as [|[k' v'] acc IH]; simpl; [reflexivity|].
  rewrite orb_false_iff. intros [Hk Hacc].
  rewrite String.eqb_sym, Hk. now apply IH.
Qed.

Lemma insert_last k v acc :
  forallb (fun k' => negb (JS.before (JS.array_index k) (JS.array_index k')))
    (map fst acc) = true ->
  JS.insert JS.array_index k v acc = (acc ++ [(k, v)])%list.
Proof.
  induction acc as [|[k' v'] acc IH]; simpl; [reflexivity|].
  rewrite andb_true_iff, negb_true_iff. intros [Hk Hacc].
  rewrite Hk. now rewrite IH.
Qed.

Lemma update_fresh k v acc :
  existsb (String.eqb k) (map fst acc) = false ->
  forallb (fun k' => negb (JS.before (JS.array_index k) (JS.array_index k')))
    (map fst acc) = true ->
  JS.update k v acc = (acc ++ [(k, v)])%list.
Proof.
  intros Hk Ho. unfold JS.update, JS.put.
  rewrite (find_fresh _ _ Hk). now apply insert_last.
Qed.

Lemma distinct_middle l1 k l2 :
  distinct (l1 ++ k :: l2)%list = true ->
  existsb (String.eqb k) l1 = false.
Proof.
  induction l1 as [|a l1 IH]; simpl; [reflexivity|].
  rewrite andb_true_iff, negb_true_iff, existsb_app. simpl.
  rewrite !orb_false_iff. intros [(_ & Ha & _) Hd].
  split; [now rewrite String.eqb_sym | now apply IH].
Qed.

Lemma in_order_middle l1 k l2 :
  in_order (l1 ++ k :: l2)%list = true ->
  forallb (fun k' => negb (JS.before (JS.array_index k) (JS.array_index k')))
    l1 = true.
Proof.
  induction l1 as [|a l1 IH]; simpl; [reflexivity|].
  rewrite !andb_true_iff, forallb_app. simpl.
  rewrite !andb_true_iff. intros [(_ & Ha & _) Ho].
  split; [exact Ha | now apply IH].
Qed.

Lemma fold_update_distinct ms acc :
  distinct (map fst (acc ++ ms)%list) = true ->
  in_order (map fst (acc ++ ms)%list) = true ->
  fold_left (fun o m => JS.update (fst m) (snd m) o) ms acc = (acc ++ ms)%list.
Proof.
  revert acc. induction ms as [|[k v] ms IH]; intros acc H Ho; simpl.
  - now rewrite List.app_nil_r.
  - rewrite update_fresh.
    + rewrite IH; rewrite <- List.app_assoc; [reflexivity | exact H | exact Ho].
    + rewrite map_app in H. simpl in H. now apply distinct_middle in H.
    + rewrite map_app in Ho. simpl in Ho. now apply in_order_middle in Ho.
Qed.

Lemma build_object_distinct ms :
  distinct (map fst ms) = true -> in_order (map fst ms) = true ->
  build_object ms = ms.
Proof. intros H Ho. unfold build_object. now rewrite fold_update_distinct. Qed.

(** *** Every well-formed value is read back *)

Lemma forallb_Forall_reads (P : json -> Prop) items :
  Forall (fun v => wf v = true -> P v) items ->
  forallb wf items = true -> Forall P items.
Proof.
  induction 1 as [|x l Hx Hl IH]; simpl; [constructor|].
  rewrite andb_true_iff. intros [Hwx Hwl]. constructor; auto.
Qed.

Lemma forallb_Forall_props (P : json -> Prop) (props : list (string * json)) :
  Forall (fun m => wf (snd m) = true -> P (snd m)) props ->
  forallb (fun m => wf (snd m)) props = true ->
  Forall (fun m => P (snd m)) props.
Proof.
  induction 1 as [|x l Hx Hl IH]; simpl; [constructor|].
  rewrite andb_true_iff. intros [Hwx Hwl]. constructor; auto.
Qed.

Lemma parse_serialize v : wf v = true -> reads_back v.
Proof.
  induction v as [|b|x|s|u|items IH|props IH|props IH] using json_ind;
    intros Hwf p k fuel rest Hfuel Hrest; try discriminate;
    (destruct fuel as [|fuel]; [simpl in Hfuel; lia|]).
  - reflexivity.
  - destruct b; reflexivity.
  - destruct x as [n| |]; try discriminate. cbn [wf] in Hwf.
    destruct (Number_toString_start n) as (c & s & E & Hc).
    pose proof (parse_number_toString n rest Hrest Hwf) as Hn.
    cbn [serialize]. rewrite (number_text_safe n Hwf).
    rewrite E in *. cbn [append] in *.
    now rewrite parse_value_number, Hn.
  - cbn [serialize].
    destruct (parse_QuoteJSONString s rest) as (body & -> & Hbody).
    cbn -[parse_string text_value]. rewrite Hbody.
    now rewrite text_value_units_of.
  - destruct items as [|x l]; [reflexivity|].
    rewrite serialize_arr. cbn [append]. rewrite !app_assoc.
    cbn [append].
    apply (forallb_Forall_reads reads_back) in IH; [|exact Hwf].
    cbn [weight] in Hfuel. fold (items_weight (x :: l)) in Hfuel.
    pose proof (parse_elements_concat p k (x :: l) IH fuel rest) as He.
    cbn [parse_value]. unfold skip_ws at 1. cbn [drop_while is_ws].
    cbn -[skip_ws parse_elements newline String.concat map].
    rewrite skip_ws_newline.
    assert (Hwx : wf x = true)
      by (cbn [wf forallb] in Hwf; now apply andb_true_iff in Hwf).
    destruct (serialize_start p (S k) x Hwx) as (c & t & Ex & Hc).
    destruct (value_start_facts c Hc) as (Hws & Hb & _).
    assert (Hhead : exists t',
      String.concat (separator p (S k)) (map (serialize p (S k)) (x :: l))
        ++ newline p k ++ String "]" rest = String c t').
    { destruct l; cbn [map String.concat]; rewrite Ex; cbn [append]; eauto. }
    destruct Hhead as (t' & Et).
    rewrite Et, (skip_ws_if_not_ws c t' Hws), Hb, <- Et.
    rewrite (parse_elements_ws fuel _ _ (skip_ws_newline p (S k) _)).
    rewrite He by (try discriminate; lia). reflexivity.
  - destruct props as [|x l]; [reflexivity|].
    rewrite serialize_obj. cbn [append]. rewrite !app_assoc.
    cbn [append].
    cbn [wf] in Hwf. apply andb_true_iff in Hwf. destruct Hwf as [Hd Hwf].
    apply andb_true_iff in Hd. destruct Hd as [Hd Ho].
    apply (forallb_Forall_props reads_back) in IH; [|exact Hwf].
    cbn [weight] in Hfuel. fold (props_weight (x :: l)) in Hfuel.
    pose proof (parse_members_concat p k (x :: l) IH fuel rest) as He.
    cbn [parse_value]. unfold skip_ws at 1. cbn [drop_while is_ws].
    cbn -[skip_ws parse_members newline String.concat map].
    rewrite skip_ws_newline.
    assert (Hhead : exists t',
      String.concat (separator p (S k)) (map (member p (S k)) (x :: l))
        ++ newline p k ++ String "}" rest = String dquote t').
    { destruct l; cbn [map String.concat]; unfold member at 1, QuoteJSONString;
        cbn [append]; eauto. }
    destruct Hhead as (t' & Et).
    rewrite Et. unfold skip_ws at 1. cbn [drop_while is_ws].
    cbn -[skip_ws parse_members newline String.concat map].
    rewrite <- Et.
    rewrite (parse_members_ws fuel _ _ (skip_ws_newline p (S k) _)).
    rewrite He by (try discriminate; lia).
    now rewrite object_value_with_units, build_object_distinct.
Qed.

(** *** The length of the text is enough fuel *)

Lemma items_weight_le (f : json -> string) sep items :
  Forall (fun v => weight v <= String.length (f v)) items ->
  1 <= String.length sep ->
  items_weight items <= String.length (String.concat sep (map f items)) + 1.
Proof.
  intros H Hsep. induction H as [|x l Hx Hl IH]; simpl; [lia|].
  fold (items_weight l). destruct l as [|y l].
  - simpl. lia.
  - cbn [map] in *. rewrite !length_app. lia.
Qed.

Lemma props_weight_le (f : string * json -> string) sep props :
  Forall (fun m => weight (snd m) <= String.length (f m)) props ->
  1 <= String.length sep ->
  props_weight props <= String.length (String.concat sep (map f props)) + 1.
Proof.
  intros H Hsep. induction H as [|x l Hx Hl IH]; simpl; [lia|].
  fold (props_weight l). destruct l as [|y l].
  - simpl. lia.
  - cbn [map] in *. rewrite !length_app. lia.
Qed.

Lemma weight_le_length p k v :
  wf v = true -> weight v <= String.length (serialize p k v).
Proof.
  revert k.
  induction v as [|b|x|s|u|items IH|props IH|props IH] using json_ind;
    intros k Hwf; try discriminate.
  - simpl. lia.
  - destruct b; simpl; lia.
  - destruct x as [n| |]; try discriminate. cbn [wf] in Hwf.
    destruct (Number_toString_start n) as (c & s & E & _).
    cbn [serialize weight]. rewrite (number_text_safe n Hwf), E. simpl. lia.
  - simpl. lia.
  - destruct items as [|x l]; [simpl; lia|].
    rewrite serialize_arr. cbn [weight String.length].
    fold (items_weight (x :: l)). rewrite !length_app.
    pose proof (items_weight_le (serialize p (S k)) (separator p (S k)) (x :: l)) as H.
    cbn [String.length] in *.
    assert (1 <= String.length (separator p (S k))) by (simpl; lia).
    assert (Forall (fun v => weight v <= String.length (serialize p (S k) v)) (x :: l)).
    { apply (forallb_Forall_reads
               (fun v => weight v <= String.length (serialize p (S k) v)));
        [|exact Hwf].
      eapply Forall_impl; [|exact IH]. intros a Ha Hwa. now apply Ha. }
    specialize (H ltac:(assumption) ltac:(assumption)). lia.
  - destruct props as [|x l]; [simpl; lia|].
    rewrite serialize_obj. cbn [weight String.length].
    fold (props_weight (x :: l)). rewrite !length_app.
    pose proof (props_weight_le (member p (S k)) (separator p (S k)) (x :: l)) as H.
    cbn [String.length] in *.
    assert (1 <= String.length (separator p (S k))) by (simpl; lia).
    cbn [wf] in Hwf. apply andb_true_iff in Hwf. destruct Hwf as [_ Hwf].
    assert (Forall (fun m => weight (snd m) <= String.length (member p (S k) m)) (x :: l)).
    { assert (IH' : Forall (fun m => wf (snd m) = true ->
                forall k, weight (snd m) <= String.length (serialize p k (snd m)))
                (x :: l))
        by (eapply Forall_impl; [|exact IH]; intros a Ha Hwa k0; now apply Ha).
      apply (forallb_Forall_props
               (fun v => forall k, weight v <= String.length (serialize p k v)))
        in IH'; [|exact Hwf].
      eapply Forall_impl; [|exact IH']. intros a Ha. unfold member.
      rewrite !length_app. specialize (Ha (S k)). lia. }
    specialize (H ltac:(assumption) ltac:(assumption)). lia.
Qed.

Lemma parse_serialize_top p v :
  wf v = true -> JSON.parse (serialize p 0 v) = inr v.
Proof.
  intros Hwf. unfold JSON.parse.
  pose proof (parse_serialize v Hwf p 0 (S (String.length (serialize p 0 v)))
                EmptyString) as H.
  rewrite app_nil_r in H. rewrite H; [reflexivity| |reflexivity].
  pose proof (weight_le_length p 0 v Hwf). lia.
Qed.

(** [JSON.parse (JSON.stringify (v, null, 2))] is [v]. *)
Lemma parse_stringify2 v : wf v = true -> JSON.parse (stringify2 v) = inr v.
Proof. apply parse_serialize_top. Qed.

(** [JSON.parse (JSON.stringify (v))] is [v]. *)
Lemma parse_stringify v : wf v = true -> JSON.parse (stringify v) = inr v.
Proof. apply parse_serialize_top. Qed.

(** *** Setting a property whose name is not an array index *)

Lemma update_nil k v : JS.update k v [] = [(k, v)].
Proof. reflexivity. Qed.

Lemma update_cons k v k' v' acc :
  JS.array_index k = None ->
  JS.update k v ((k', v') :: acc)
  = if k' =? k then (k', v) :: acc else (k', v') :: JS.update k v acc.
Proof.
  intros Hk. unfold JS.update, JS.put. cbn [JS.find JS.replace JS.insert].
  destruct (k' =? k); [reflexivity|].
  rewrite Hk. cbn [JS.before].
  now destruct (JS.find String.eqb k acc).
Qed.

Lemma update_keys a k v acc :
  JS.array_index k = None ->
  existsb (String.eqb a) (map fst (JS.update k v acc))
  = existsb (String.eqb a) (map fst acc) || (a =? k).
Proof.
  intros Hk. induction acc as [|[k' v'] acc IH].
  - simpl. now rewrite orb_false_r.
  - rewrite update_cons by assumption.
    destruct (k' =? k) eqn:E; simpl.
    + apply String.eqb_eq in E. subst k'.
      destruct (a =? k); simpl; [reflexivity | now rewrite orb_false_r].
    + rewrite IH. now rewrite orb_assoc.
Qed.

Lemma update_distinct k v acc :
  JS.array_index k = None ->
  distinct (map fst acc) = true -> distinct (map fst (JS.update k v acc)) = true.
Proof.
  intros Hk. induction acc as [|[k' v'] acc IH]; [reflexivity|].
  rewrite update_cons by assumption. simpl.
  rewrite andb_true_iff, negb_true_iff. intros [Hk' Hd].
  destruct (k' =? k) eqn:E; simpl.
  - now rewrite Hk', Hd.
  - now rewrite update_keys, Hk', E, IH.
Qed.

Lemma update_forallb_keys (P : string -> bool) k v acc :
  JS.array_index k = None ->
  P k = true ->
  forallb P (map fst acc) = true ->
  forallb P (map fst (JS.update k v acc)) = true.
Proof.
  intros Hk HP. induction acc as [|[k' v'] acc IH].
  - simpl. now rewrite HP.
  - rewrite update_cons by assumption. simpl.
    rewrite andb_true_iff. intros [H1 H2].
    destruct (k' =? k); simpl; [now rewrite H1, H2 | now rewrite H1, IH].
Qed.

Lemma update_in_order k v acc :
  JS.array_index k = None ->
  in_order (map fst acc) = true -> in_order (map fst (JS.update k v acc)) = true.
Proof.
  intros Hk. induction acc as [|[k' v'] acc IH]; [reflexivity|].
  rewrite update_cons by assumption. simpl.
  rewrite andb_true_iff. intros [H1 H2].
  destruct (k' =? k); simpl; [now rewrite H1, H2|].
  rewrite IH by assumption. rewrite andb_true_r.
  apply update_forallb_keys; [assumption| |assumption].
  now rewrite Hk.
Qed.

Lemma update_wf k v acc :
  JS.array_index k = None ->
  wf v = true ->
  forallb (fun m => wf (snd m)) acc = true ->
  forallb (fun m => wf (snd m)) (JS.update k v acc) = true.
Proof.
  intros Hk Hv. induction acc as [|[k' v'] acc IH].
  - simpl. now rewrite Hv.
  - rewrite update_cons by assumption. simpl.
    rewrite andb_true_iff. intros [H1 H2].
    destruct (k' =? k); simpl; [now rewrite Hv, H2 | now rewrite H1, IH].
Qed.

Ltac break_parser H :=
  repeat match type of H with
    | context [match ?x with _ => _ end] => destruct x eqn:?; try discriminate
    end.

(** *** The fuel of [JSON.parse] is enough for every text

    A successful parse with some fuel consumes at least one character, and
    succeeds with the same result on any fuel that is at least the number
    of characters consumed.  So [JSON.parse] fails on a text only if the
    parser fails on it with every fuel. *)

Lemma skip_ws_length s : String.length (skip_ws s) <= String.length s.
Proof.
  unfold skip_ws. induction s as [|c s IH]; simpl; [lia|].
  destruct (is_ws c); simpl; lia.
Qed.

Lemma parse_string_length_bounded n :
  forall s k r,
    String.length s <= n -> parse_string s = Some (k, r) ->
    String.length r < String.length s.
Proof.
  induction n as [|n IH]; intros s k r Hn H.
  - destruct s; [discriminate | simpl in Hn; lia].
  - destruct s as [|c s]; [discriminate|].
    cbn [parse_string] in H. unfold cons_unit in H. simpl in Hn.
    break_parser H; inversion H; subst; simpl in *;
      try lia;
      match goal with
      | E : parse_string ?t = Some (_, ?r') |- _ =>
          apply IH in E; simpl in *; lia
      end.
Qed.

Lemma parse_string_length s k r :
  parse_string s = Some (k, r) -> String.length r < String.length s.
Proof. apply (parse_string_length_bounded (String.length s)). lia. Qed.

Lemma span_digits_length s ds r :
  span_digits s = (ds, r) ->
  String.length s = String.length ds + String.length r.
Proof.
  revert ds r. induction s as [|c s IH]; intros ds r H; simpl in H.
  - now inversion H.
  - destruct (is_digit c).
    + destruct (span_digits s) as [ds' r'] eqn:E. inversion H; subst.
      simpl. now rewrite (IH ds' r).
    + inversion H; subst. reflexivity.
Qed.

Lemma parse_fraction_length s fs r :
  parse_fraction s = Some (fs, r) -> String.length r <= String.length s.
Proof.
  unfold parse_fraction. intros H.
  break_parser H; inversion H; subst; try lia;
    match goal with
    | E : span_digits _ = _ |- _ => apply span_digits_length in E; simpl in *; lia
    end.
Qed.

Lemma exponent_digits_length negative s e r :
  exponent_digits negative s = Some (e, r) ->
  String.length r <= String.length s.
Proof.
  unfold exponent_digits. destruct (span_digits s) as [es rest] eqn:E.
  apply span_digits_length in E. intros H.
  break_parser H; inversion H; subst; lia.
Qed.

Lemma parse_exponent_length s e r :
  parse_exponent s = Some (e, r) -> String.length r <= String.length s.
Proof.
  unfold parse_exponent. intros H.
  break_parser H; try (inversion H; subst; simpl; lia);
    apply exponent_digits_length in H; simpl in *; lia.
Qed.

Lemma parse_unsigned_length negative s x r :
  parse_unsigned negative s = Some (x, r) ->
  String.length r < String.length s.
Proof.
  unfold parse_unsigned. destruct (span_digits s) as [ds r1] eqn:E.
  apply span_digits_length in E. intros H.
  destruct ds as [|d ds]; [discriminate|].
  break_parser H; inversion H; subst;
    repeat match goal with
      | F : parse_fraction _ = Some _ |- _ => apply parse_fraction_length in F
      | F : parse_exponent _ = Some _ |- _ => apply parse_exponent_length in F
      end;
    simpl in E; lia.
Qed.

Lemma parse_number_length s n r :
  parse_number s = Some (n, r) -> String.length r < String.length s.
Proof.
  unfold parse_number. intros H.
  break_parser H;
    match goal with
    | E : parse_unsigned _ _ = Some _ |- _ =>
        apply parse_unsigned_length in E; simpl in *; lia
    end.
Qed.

Lemma expect_length p s r :
  expect p s = Some r -> String.length r <= String.length s.
Proof.
  revert s. induction p as [|c p IH]; intros s H; simpl in H.
  - inversion H. lia.
  - destruct s as [|c' s]; [discriminate|].
    destruct (c =? c')%char; [|discriminate].
    apply IH in H. simpl. lia.
Qed.

Ltac note_lengths :=
  repeat match goal with
    | H : skip_ws ?s = ?t |- _ =>
        assert (String.length t <= String.length s)
          by (rewrite <- H; apply skip_ws_length);
        revert H
    | H : parse_string _ = Some _ |- _ =>
        pose proof (parse_string_length _ _ _ H); revert H
    | H : parse_number _ = Some _ |- _ =>
        pose proof (parse_number_length _ _ _ H); revert H
    | H : expect _ _ = Some _ |- _ =>
        pose proof (expect_length _ _ _ H); revert H
    end;
  intros.

Ltac replay :=
  repeat match goal with
    | H : ?x = _ |- context [match ?x with _ => _ end] => rewrite H
    | H : forall k, _ -> parse_value k ?s = _ |- context [parse_value ?k' ?s] =>
        rewrite (H k') by (simpl in *; lia)
    | H : forall k, _ -> parse_elements k ?s = _ |- context [parse_elements ?k' ?s] =>
        rewrite (H k') by (simpl in *; lia)
    | H : forall k, _ -> parse_members k ?s = _ |- context [parse_members ?k' ?s] =>
        rewrite (H k') by (simpl in *; lia)
    end.

Lemma parse_fuel_all n :
  (forall s v r,
     parse_value n s = Some (v, r) ->
     String.length r < String.length s
     /\ forall k, String.length s - String.length r <= k ->
                  parse_value k s = Some (v, r))
  /\ (forall s vs r,
        parse_elements n s = Some (vs, r) ->
        String.length r < String.length s
        /\ forall k, String.length s - String.length r <= k ->
                     parse_elements k s = Some (vs, r))
  /\ (forall s ms r,
        parse_members n s = Some (ms, r) ->
        String.length r < String.length s
        /\ forall k, String.length s - String.length r <= k ->
                     parse_members k s = Some (ms, r)).
Proof.
  induction n as [|n (IHv & IHe & IHm)];
    [repeat split; intros; discriminate|].
  split; [|split].
  - intros s v r H. cbn [parse_value] in H.
    break_parser H; inversion H; subst; clear H;
      repeat match goal with
        | E : parse_elements n _ = Some _ |- _ => apply IHe in E; destruct E
        | E : parse_members n _ = Some _ |- _ => apply IHm in E; destruct E
        end;
      note_lengths;
      (split; [simpl in *; lia|]);
      intros k Hk; (destruct k as [|k]; [simpl in *; lia|]);
      cbn [parse_value]; replay; reflexivity.
  - intros s vs r H. cbn [parse_elements] in H.
    break_parser H; inversion H; subst; clear H;
      repeat match goal with
        | E : parse_value n _ = Some _ |- _ => apply IHv in E; destruct E
        | E : parse_elements n _ = Some _ |- _ => apply IHe in E; destruct E
        end;
      note_lengths;
      (split; [simpl in *; lia|]);
      intros k Hk; (destruct k as [|k]; [simpl in *; lia|]);
      cbn [parse_elements]; replay; reflexivity.
  - intros s ms r H. cbn [parse_members] in H.
    break_parser H; inversion H; subst; clear H;
      repeat match goal with
        | E : parse_value n _ = Some _ |- _ => apply IHv in E; destruct E
        | E : parse_members n _ = Some _ |- _ => apply IHm in E; destruct E
        end;
      note_lengths;
      (split; [simpl in *; lia|]);
      intros k Hk; (destruct k as [|k]; [simpl in *; lia|]);
      cbn [parse_members]; replay; reflexivity.
Qed.

(** If the parser reads a whole text with some fuel, [JSON.parse] returns
    what it read. *)
Lemma parse_any_fuel n s v r :
  parse_value n s = Some (v, r) -> skip_ws r = EmptyString ->
  JSON.parse s = inr v.
Proof.
  intros H Hr. destruct (parse_fuel_all n) as (Hv & _).
  destruct (Hv s v r H) as [Hlen Hk].
  unfold JSON.parse. rewrite Hk by lia. now rewrite Hr.
Qed.

(** *** A text cut short

    The parser never looks past the end of what it reads, except to see
    where a number ends: what it reads in a text it reads in every longer
    text.  So no proper prefix of the text of an array is JSON. *)

Lemma skip_ws_app s u c r :
  skip_ws s = String c r -> skip_ws (s ++ u) = String c (r ++ u).
Proof.
  unfold skip_ws. induction s as [|a s IH]; [discriminate|].
  cbn [drop_while append]. destruct (is_ws a); [exact IH|].
  now intros [= -> ->].
Qed.

Lemma parse_string_app_bounded n :
  forall s u k r,
    String.length s <= n -> parse_string s = Some (k, r) ->
    parse_string (s ++ u) = Some (k, r ++ u).
Proof.
  induction n as [|n IH]; intros s u k r Hn H.
  - destruct s; [discriminate | simpl in Hn; lia].
  - destruct s as [|c s]; [discriminate|].
    cbn [parse_string append] in *. unfold cons_unit in *. simpl in Hn.
    break_parser H; inversion H; subst; clear H; cbn [append];
      repeat match goal with
        | E : ?x = _ |- context [?x] => rewrite E
        end;
      try reflexivity;
      match goal with
      | E : parse_string ?t = Some _ |- _ =>
          rewrite (IH t u _ _ ltac:(simpl in *; lia) E); reflexivity
      end.
Qed.

Lemma parse_string_app s u k r :
  parse_string s = Some (k, r) -> parse_string (s ++ u) = Some (k, r ++ u).
Proof. apply (parse_string_app_bounded (String.length s)). lia. Qed.

Lemma span_digits_app s u ds r :
  span_digits s = (ds, r) -> r <> EmptyString ->
  span_digits (s ++ u) = (ds, r ++ u).
Proof.
  revert ds r. induction s as [|c s IH]; intros ds r H Hr.
  - inversion H; subst. congruence.
  - cbn [span_digits append] in *. destruct (is_digit c).
    + destruct (span_digits s) as [ds' r'] eqn:E. inversion H; subst.
      now rewrite (IH ds' r eq_refl Hr).
    + now inversion H; subst.
Qed.

Lemma expect_app p s u r :
  expect p s = Some r -> expect p (s ++ u) = Some (r ++ u).
Proof.
  revert s. induction p as [|c p IH]; intros s H; simpl in H.
  - now inversion H.
  - destruct s as [|c' s]; [discriminate|]. cbn [append expect].
    destruct (c =? c')%char; [now apply IH | discriminate].
Qed.

Lemma nonempty_length s : s <> EmptyString <-> 0 < String.length s.
Proof. destruct s; simpl; split; (congruence || lia). Qed.

Lemma parse_fraction_app s u fs r :
  parse_fraction s = Some (fs, r) -> r <> EmptyString ->
  parse_fraction (s ++ u) = Some (fs, r ++ u).
Proof.
  unfold parse_fraction. intros H Hr.
  break_parser H; inversion H; subst; clear H; cbn [append];
    try reflexivity; try congruence.
  match goal with
  | E : span_digits _ = _, F : (_ =? _) = false |- _ =>
      rewrite (span_digits_app _ u _ _ E Hr), F; reflexivity
  end.
Qed.

Lemma exponent_digits_app negative s u e r :
  exponent_digits negative s = Some (e, r) -> r <> EmptyString ->
  exponent_digits negative (s ++ u) = Some (e, r ++ u).
Proof.
  unfold exponent_digits. destruct (span_digits s) as [es rest] eqn:E.
  intros H Hr.
  destruct (es =? EmptyString) eqn:Ee; [discriminate|].
  destruct (digits_value es) as [v|] eqn:Ev; [|discriminate].
  inversion H; subst.
  now rewrite (span_digits_app _ u _ _ E Hr), Ee, Ev.
Qed.

Lemma parse_exponent_app s u e r :
  parse_exponent s = Some (e, r) -> r <> EmptyString ->
  parse_exponent (s ++ u) = Some (e, r ++ u).
Proof.
  unfold parse_exponent. intros H Hr.
  destruct s as [|c s]; [inversion H; subst; congruence|].
  cbn [append].
  destruct ((c =? "e")%char || (c =? "E")%char);
    [|now inversion H; subst].
  break_parser H; cbn [append];
    try (apply exponent_digits_app; assumption);
    try (apply (exponent_digits_app _ (String _ _)); assumption).
Qed.

Lemma parse_unsigned_app negative s u x r :
  parse_unsigned negative s = Some (x, r) -> r <> EmptyString ->
  parse_unsigned negative (s ++ u) = Some (x, r ++ u).
Proof.
  unfold parse_unsigned. destruct (span_digits s) as [ds r1] eqn:E.
  intros H Hr.
  destruct ((ds =? EmptyString) || leading_zero ds) eqn:Ed; [discriminate|].
  destruct (parse_fraction r1) as [[fs r2]|] eqn:Ef; [|discriminate].
  destruct (parse_exponent r2) as [[e r3]|] eqn:Ee; [|discriminate].
  destruct (digits_value (ds ++ fs)) as [m|] eqn:Em; [|discriminate].
  inversion H; subst. apply nonempty_length in Hr.
  pose proof (parse_exponent_length _ _ _ Ee) as L3.
  pose proof (parse_fraction_length _ _ _ Ef) as L2.
  assert (H2 : r2 <> EmptyString) by (apply nonempty_length; lia).
  assert (H1 : r1 <> EmptyString) by (apply nonempty_length; lia).
  apply nonempty_length in Hr.
  now rewrite (span_digits_app _ u _ _ E H1), Ed,
    (parse_fraction_app _ u _ _ Ef H2), (parse_exponent_app _ u _ _ Ee Hr), Em.
Qed.

Lemma parse_number_app s u x r :
  parse_number s = Some (x, r) -> r <> EmptyString ->
  parse_number (s ++ u) = Some (x, r ++ u).
Proof.
  unfold parse_number. intros H Hr.
  destruct s as [|c s].
  - unfold parse_unsigned in H. cbn in H. discriminate.
  - cbn [append].
    break_parser H;
      try (apply parse_unsigned_app; assumption);
      try (apply (parse_unsigned_app _ (String _ _)); assumption).
Qed.

Lemma followed_ends_cleanly v r c r' :
  skip_ws r = String c r' -> ends_cleanly v r.
Proof. destruct v; simpl; trivial. intros H ->. discriminate. Qed.

Ltac extend u :=
  repeat (cbv beta iota;
    match goal with
    | E : skip_ws ?s = String _ _ |- context [skip_ws (?s ++ u)] =>
        rewrite (skip_ws_app s u _ _ E)
    | E : parse_string ?s = Some _ |- context [parse_string (?s ++ u)] =>
        rewrite (parse_string_app s u _ _ E)
    | E : expect ?p ?s = Some _ |- context [expect ?p (?s ++ u)] =>
        rewrite (expect_app p s u _ E)
    | E : ?x = _ |- context [match ?x with _ => _ end] => rewrite E
    end).

Lemma parse_app_all n :
  (forall s v r u,
     parse_value n s = Some (v, r) -> ends_cleanly v r ->
     parse_value n (s ++ u) = Some (v, r ++ u))
  /\ (forall s vs r u,
        parse_elements n s = Some (vs, r) ->
        parse_elements n (s ++ u) = Some (vs, r ++ u))
  /\ (forall s ms r u,
        parse_members n s = Some (ms, r) ->
        parse_members n (s ++ u) = Some (ms, r ++ u)).
Proof.
  induction n as [|n (IHv & IHe & IHm)];
    [repeat split; intros; discriminate|].
  split; [|split].
  - intros s v r u H Hend. cbn [parse_value] in H.
    break_parser H; inversion H; subst; clear H;
      cbn [parse_value]; extend u;
      try reflexivity;
      try (match goal with
           | E : parse_elements n _ = Some _ |- _ =>
               rewrite (IHe _ _ _ u E); reflexivity
           | E : parse_members n _ = Some _ |- _ =>
               rewrite (IHm _ _ _ u E); reflexivity
           end).
    match goal with
    | E : parse_number (String ?c ?t) = Some _ |- _ =>
        change (String c (t ++ u)) with (String c t ++ u);
        rewrite (parse_number_app _ u _ _ E Hend); reflexivity
    end.
  - intros s vs r u H. cbn [parse_elements] in H.
    break_parser H; inversion H; subst; clear H;
      cbn [parse_elements];
      match goal with
      | E : parse_value n _ = Some _, F : skip_ws _ = String _ _ |- _ =>
          rewrite (IHv _ _ _ u E (followed_ends_cleanly _ _ _ _ F))
      end;
      extend u; try reflexivity;
      match goal with
      | E : parse_elements n _ = Some _ |- _ =>
          rewrite (IHe _ _ _ u E); reflexivity
      end.
  - intros s ms r u H. cbn [parse_members] in H.
    break_parser H; inversion H; subst; clear H;
      cbn [parse_members]; extend u;
      match goal with
      | E : parse_value n ?t = Some (_, ?r3), F : skip_ws ?r3 = String _ _ |- _ =>
          rewrite (IHv _ _ _ u E (followed_ends_cleanly _ _ _ _ F))
      end;
      extend u; try reflexivity;
      match goal with
      | E : parse_members n _ = Some _ |- _ =>
          rewrite (IHm _ _ _ u E); reflexivity
      end.
Qed.

Lemma substring_prefix n s : exists u, s = substring 0 n s ++ u.
Proof.
  revert s. induction n as [|n IH]; intros s.
  - exists s. now destruct s.
  - destruct s as [|c s]; [now exists EmptyString|].
    destruct (IH s) as [u Hu]. exists u. cbn [substring append]. now f_equal.
Qed.

Lemma serialize_array_start p l :
  exists body, serialize p 0 (JArr l) = String "[" body.
Proof. destruct l; cbn [serialize]; eexists; reflexivity. Qed.

Lemma bracket_ends_cleanly n t v r :
  parse_value n (String "[" t) = Some (v, r) -> ends_cleanly v r.
Proof.
  destruct n as [|n]; [discriminate|]. cbn [parse_value].
  rewrite skip_ws_if_not_ws by reflexivity.
  change (("[" =? "[")%char) with true. cbv iota. intros H.
  break_parser H; inversion H; subst; exact I.
Qed.

(** A text that is read to its end is not read when it is cut short. *)
Lemma parse_cut n t u v :
  parse_value n (String "[" (t ++ u)) = Some (v, EmptyString) ->
  u <> EmptyString ->
  JSON.parse (String "[" t) = inl SyntaxError.
Proof.
  intros Hfull Hu. unfold JSON.parse.
  destruct (parse_value _ (String "[" t)) as [[v' r]|] eqn:E; [|reflexivity].
  exfalso.
  pose proof (bracket_ends_cleanly _ _ _ _ E) as Hend.
  destruct (parse_app_all (S (String.length (String "[" t)))) as (Hv & _).
  pose proof (Hv _ _ _ u E Hend) as E'. cbn [append] in E'.
  destruct (parse_fuel_all n) as (F1 & _).
  destruct (F1 _ _ _ Hfull) as [_ K1].
  destruct (parse_fuel_all (S (String.length (String "[" t)))) as (F2 & _).
  destruct (F2 _ _ _ E') as [_ K2].
  pose proof (K1 (String.length (String "[" (t ++ u))) ltac:(lia)) as A.
  pose proof (K2 (String.length (String "[" (t ++ u))) ltac:(lia)) as B.
  rewrite A in B. inversion B as [[Hv' Hr]].
  destruct r; [cbn in Hr; congruence | discriminate].
Qed.

(** The text of an array, cut short, is not JSON. *)
Lemma cut_unread written l :
  wf (JArr l) = true ->
  JSON.parse (substring 0 written (stringify2 (JArr l))) = inl SyntaxError
  \/ substring 0 written (stringify2 (JArr l)) = stringify2 (JArr l).
Proof.
  intros Hwf. unfold stringify2.
  pose proof (parse_serialize (JArr l) Hwf true 0
                (S (String.length (serialize true 0 (JArr l)))) EmptyString) as H.
  rewrite app_nil_r in H.
  specialize (H ltac:(pose proof (weight_le_length true 0 (JArr l) Hwf); lia)
                eq_refl).
  destruct (substring_prefix written (serialize true 0 (JArr l))) as [u Hu].
  destruct u as [|c u]; [right; now rewrite app_nil_r in Hu|]. left.
  destruct (serialize_array_start true l) as [body Hb].
  rewrite Hb in *.
  destruct written as [|written]; [reflexivity|].
  cbn [substring] in *. inversion Hu as [Hu'].
  rewrite Hu' in H. rewrite <- Hu'.
  eapply parse_cut; [exact H | discriminate].
Qed.

End JSONFacts.

(** ** The store and the routes *)

Module ServerFacts.
Import JSONFacts.

Lemma parse_error s e : JSON.parse s = inl e -> e = SyntaxError.
Proof.
  unfold JSON.parse. intros H. break_parser H; now inversion H.
Qed.

(** [readContacts] by cases on the data file. *)
Lemma readContacts_eq w :
  readContacts w
  = (match disk w with
     | Absent => inr (JArr [])
     | Regular data =>
         match JSON.parse data with
         | inr v => inr v
         | inl _ => inr (JArr [])
         end
     | Unreadable code =>
         if is_ENOENT (SystemError code) then inr (JArr [])
         else inl (SystemError code)
     end, w).
Proof.
  unfold readContacts, try_catch, bind, fs.readFile, lift.
  destruct (disk w) as [|data|code]; cbn.
  - reflexivity.
  - destruct (JSON.parse data) as [e|v] eqn:E; [|reflexivity].
    apply parse_error in E. now subst e.
  - now destruct code.
Qed.

Lemma readContacts_world w r w' : readContacts w = (r, w') -> w' = w.
Proof. rewrite readContacts_eq. now intros [= _ <-]. Qed.

Lemma readContacts_saved v w :
  wf v = true -> readContacts (saved v w) = (inr v, saved v w).
Proof.
  intros H. rewrite readContacts_eq. cbn [saved disk].
  now rewrite parse_stringify2.
Qed.

(** A write of an array that stops half way leaves a file that lists
    nothing, unless all of the text was written. *)
Lemma readContacts_cut written l w :
  wf (JArr l) = true ->
  readContacts (cut written (JArr l) w)
  = (inr (JArr []), cut written (JArr l) w)
  \/ cut written (JArr l) w = saved (JArr l) w.
Proof.
  intros H. destruct (cut_unread written l H) as [E|E].
  - left. rewrite readContacts_eq. cbn [cut disk]. now rewrite E.
  - right. unfold cut, saved. now rewrite E.
Qed.

Lemma store_inv_cut P written l w :
  wf (JArr l) = true ->
  store_inv P (saved (JArr l) w) -> store_inv P (cut written (JArr l) w).
Proof.
  intros H Hs. destruct (readContacts_cut written l w H) as [E|E].
  - intros cs w' Hr. rewrite E in Hr. now inversion Hr.
  - now rewrite E.
Qed.

Lemma writeContacts_eq v w :
  writeContacts v w
  = match write_fault w with
    | Some (FailsAtOpen code) => (inl (SystemError code), w)
    | Some (FailsAfterOpen code written) =>
        (inl (SystemError code), cut written v w)
    | None => (inr tt, saved v w)
    end.
Proof. reflexivity. Qed.

Lemma get_contacts_eq w :
  get_contacts w
  = match readContacts w with
    | (inr contacts, w') => (inr (ok contacts), w')
    | (inl _, w') =>
        (inr {| status := 500;
                body := Json (message
                  "Error interno del servidor al obtener contactos.") |}, w')
    end.
Proof.
  unfold get_contacts, try_catch, bind, ret.
  now destruct (readContacts w) as [[e|v] w'].
Qed.

Lemma get_contacts_world w : snd (get_contacts w) = w.
Proof.
  rewrite get_contacts_eq.
  destruct (readContacts w) as [[e|v] w'] eqn:E;
    apply readContacts_world in E; now subst.
Qed.

(** If the list route answers with a sequence, that is what the store
    holds. *)
Lemma get_contacts_ok w v :
  fst (get_contacts w) = inr (ok v) -> readContacts w = (inr v, w).
Proof.
  rewrite get_contacts_eq.
  destruct (readContacts w) as [[e|u] w'] eqn:E; cbn; [discriminate|].
  intros [= <-]. apply readContacts_world in E. now subst.
Qed.

Lemma has_object v k :
  has v k = true -> (exists o, v = JObj o) \/ (exists o, v = JWObj o).
Proof.
  destruct v; cbn; try discriminate; eauto.
Qed.

(** For a string, present and not empty is truthy. *)
Lemma has_nonempty_string v k s :
  JS.get v k = inr (Some (JStr s)) -> s <> EmptyString -> has v k = true.
Proof.
  intros Hg Hs. unfold has. rewrite Hg. cbn.
  apply String.eqb_neq in Hs. now rewrite Hs.
Qed.

Lemma lookup_cons k k' v' o :
  JS.lookup k ((k', v') :: o) = if k' =? k then Some v' else JS.lookup k o.
Proof. reflexivity. Qed.

Lemma lookup_update_same k v o :
  JS.array_index k = None -> JS.lookup k (JS.update k v o) = Some v.
Proof.
  intros Hk. induction o as [|[k' v'] o IH].
  - now rewrite update_nil, lookup_cons, String.eqb_refl.
  - rewrite update_cons by assumption.
    destruct (k' =? k) eqn:E; rewrite lookup_cons, E; [reflexivity | exact IH].
Qed.

Lemma lookup_update_other k k' v o :
  JS.array_index k = None ->
  k <> k' -> JS.lookup k' (JS.update k v o) = JS.lookup k' o.
Proof.
  intros Hk Hne. induction o as [|[a x] o IH].
  - rewrite update_nil, lookup_cons.
    apply String.eqb_neq in Hne. now rewrite Hne.
  - rewrite update_cons by assumption.
    destruct (a =? k) eqn:E; rewrite !lookup_cons.
    + apply String.eqb_eq in E. subst a.
      apply String.eqb_neq in Hne. now rewrite Hne.
    + now rewrite IH.
Qed.

Lemma update_update k v x o :
  JS.array_index k = None ->
  JS.update k v (JS.update k x o) = JS.update k v o.
Proof.
  intros Hk. induction o as [|[a y] o IH].
  - now rewrite update_nil, update_cons, String.eqb_refl.
  - rewrite !update_cons by assumption.
    destruct (a =? k) eqn:E; rewrite update_cons, E by assumption;
      [reflexivity | now rewrite IH].
Qed.

Lemma Number_toString_nonempty n : JS.Number_toString n <> EmptyString.
Proof.
  destruct (Number_toString_start n) as (c & s & -> & _). discriminate.
Qed.

(** The route on a request that fails the validation. *)
Lemma post_invalid req_body w :
  req_body <> JNull -> valid_request req_body = false ->
  post_contacts req_body w = (inr bad_request, w).
Proof.
  intros Hnull Hinv. unfold valid_request, has in Hinv.
  unfold post_contacts, try_catch, bind, lift, ret.
  destruct req_body; try congruence; cbn in *;
    try reflexivity.
  - rewrite <- !negb_andb, Hinv. reflexivity.
  - rewrite <- !negb_andb, Hinv. reflexivity.
Qed.

Lemma stamp_object t o : stamp t (JObj o) = stamped t o.
Proof. reflexivity. Qed.

(** The route on a valid request, by cases on the store and on the
    write. *)
Lemma post_valid req_body w :
  valid_request req_body = true ->
  post_contacts req_body w
  = match readContacts w with
    | (inr (JArr cs), _) =>
        match write_fault w with
        | None =>
            (inr created,
             saved (JArr (cs ++ [stamp (clock w) req_body])%list) w)
        | Some (FailsAtOpen _) => (inr create_failed, w)
        | Some (FailsAfterOpen _ written) =>
            (inr create_failed,
             cut written (JArr (cs ++ [stamp (clock w) req_body])%list) w)
        end
    | _ => (inr create_failed, w)
    end.
Proof.
  intros Hv.
  assert (Ho : (exists o, req_body = JObj o) \/ (exists o, req_body = JWObj o)).
  { unfold valid_request in Hv. apply andb_true_iff in Hv.
    destruct Hv as [Hv _]. apply andb_true_iff in Hv.
    destruct Hv as [Hv _]. now apply has_object in Hv. }
  unfold valid_request, has in Hv.
  destruct Ho as [[o ->]|[o ->]]; cbn in Hv;
    unfold post_contacts, try_catch, bind, lift, ret, Date_now; cbn;
    rewrite <- !negb_andb, Hv; cbn;
    (destruct (readContacts w) as [[e|v] w'] eqn:E;
       apply readContacts_world in E; subst w'; [reflexivity|]);
    destruct v; cbn; try reflexivity;
    rewrite writeContacts_eq;
    destruct (write_fault w) as [[code|code written]|]; reflexivity.
Qed.

Lemma id_not_index : JS.array_index "id" = None.
Proof. reflexivity. Qed.

Lemma wf_appended cs o t :
  wf (JArr cs) = true -> wf (JObj o) = true ->
  wf (JArr (cs ++ [stamped t o])%list) = true.
Proof.
  cbn [wf]. intros Hcs Ho. rewrite forallb_app, Hcs. cbn [forallb].
  apply andb_true_iff in Ho. destruct Ho as [Hd Hw].
  apply andb_true_iff in Hd. destruct Hd as [Hd Hord].
  unfold stamped. cbn [wf].
  now rewrite update_distinct, update_in_order, update_wf.
Qed.

Lemma readContacts_at_time t w :
  readContacts (at_time t w) = (fst (readContacts w), at_time t w).
Proof. now rewrite !readContacts_eq. Qed.

Lemma get_contacts_at_time t w :
  fst (get_contacts (at_time t w)) = fst (get_contacts w).
Proof.
  rewrite !get_contacts_eq, readContacts_at_time.
  destruct (readContacts w) as [[e|v] w']; reflexivity.
Qed.

Lemma list_after_save v w :
  wf v = true -> fst (get_contacts (saved v w)) = inr (ok v).
Proof.
  intros H. now rewrite get_contacts_eq, readContacts_saved.
Qed.

(** What a valid request does to a store that holds the sequence [cs] and
    can be written. *)
Lemma post_appends o w cs :
  valid_request (JObj o) = true ->
  readContacts w = (inr (JArr cs), w) ->
  write_fault w = None ->
  post_contacts (JObj o) w
  = (inr created, saved (JArr (cs ++ [stamped (clock w) o])%list) w).
Proof.
  intros Hv Hr Hw. now rewrite (post_valid (JObj o) w Hv), Hr, Hw.
Qed.

Lemma stamped_get o t k :
  k <> "id" -> JS.get (stamped t o) k = JS.get (JObj o) k.
Proof.
  intros H. unfold stamped. cbn [JS.get].
  rewrite lookup_update_other; [reflexivity | reflexivity | congruence].
Qed.

Lemma stamped_id o t :
  JS.get (stamped t o) "id" = inr (Some (JStr (JS.Number_toString t))).
Proof. unfold stamped. cbn [JS.get]. now rewrite lookup_update_same. Qed.

Lemma to_int_proper n :
  Z.to_int n <> Decimal.Pos Decimal.Nil /\ Z.to_int n <> Decimal.Neg Decimal.Nil.
Proof.
  destruct n; cbn; split; try discriminate;
    intros [= H]; now apply Unsigned.to_uint_nonnil in H.
Qed.

(** Where a create leaves the world: as it was, or with the file written
    or cut short. *)
Lemma post_world req_body w :
  snd (post_contacts req_body w) = w
  \/ exists cs,
       valid_request req_body = true
       /\ readContacts w = (inr (JArr cs), w)
       /\ ((write_fault w = None
            /\ snd (post_contacts req_body w)
               = saved (JArr (cs ++ [stamp (clock w) req_body])%list) w)
           \/ exists code written,
                write_fault w = Some (FailsAfterOpen code written)
                /\ snd (post_contacts req_body w)
                   = cut written
                       (JArr (cs ++ [stamp (clock w) req_body])%list) w).
Proof.
  destruct (valid_request req_body) eqn:Hv.
  - rewrite (post_valid req_body w Hv).
    destruct (readContacts w) as [[e|v] w'] eqn:E;
      pose proof (readContacts_world _ _ _ E); subst w'; [now left|].
    destruct v as [| | | | |cs| |]; try (now left).
    destruct (write_fault w) as [[code|code written]|] eqn:Hw; [now left| |].
    + right. exists cs. repeat split. right. now exists code, written.
    + right. exists cs. repeat split. now left.
  - left. destruct req_body; try (now rewrite post_invalid).
    reflexivity.
Qed.

Lemma stamped_stored_ok o t :
  valid_request (JObj o) = true -> stored_ok (stamped t o) = true.
Proof.
  unfold valid_request, stored_ok, has. intros H.
  apply andb_true_iff in H. destruct H as [H Htel].
  apply andb_true_iff in H. destruct H as [Hnom Hape].
  rewrite stamped_id, !stamped_get by discriminate.
  cbn [JS.truthy]. rewrite Hnom, Hape, Htel.
  pose proof (Number_toString_nonempty t) as Hne.
  apply String.eqb_neq in Hne. now rewrite Hne.
Qed.

Lemma valid_request_object req_body :
  valid_request req_body = true -> wf req_body = true ->
  exists o, req_body = JObj o.
Proof.
  unfold valid_request. intros Hv Hwf. apply andb_true_iff in Hv.
  destruct Hv as [Hv _]. apply andb_true_iff in Hv.
  destruct Hv as [Hv _]. apply has_object in Hv.
  destruct Hv as [Ho|[o ->]]; [exact Ho | discriminate].
Qed.

(** Ids are distinct exactly when the clock readings are. *)
Lemma Number_toString_inj a b :
  JS.Number_toString a = JS.Number_toString b -> a = b.
Proof.
  unfold JS.Number_toString. intros H.
  apply DecimalZ.to_int_inj.
  destruct (to_int_proper a) as [Ha1 Ha2], (to_int_proper b) as [Hb1 Hb2].
  pose proof (NilZero.isi (Z.to_int a) Ha1 Ha2) as Ea.
  pose proof (NilZero.isi (Z.to_int b) Hb1 Hb2) as Eb.
  rewrite H, Eb in Ea. now inversion Ea.
Qed.

Lemma handle_post_eq text w :
  handle_post text w
  = match express_json text with
    | inr req_body =>
        match post_contacts req_body w with
        | (inr r, w') => (inr (Routed r), w')
        | (inl e, w') => (inl e, w')
        end
    | inl status => (inr (Refused status), w)
    end.
Proof.
  unfold handle_post, bind, ret.
  destruct (express_json text) as [st|v]; [reflexivity|].
  now destruct (post_contacts v w) as [[e|r] w'].
Qed.

Lemma handle_post_routed text v w :
  express_json text = inr v ->
  snd (handle_post text w) = snd (post_contacts v w)
  /\ fst (handle_post text w)
     = match fst (post_contacts v w) with
       | inr r => inr (Routed r)
       | inl e => inl e
       end.
Proof.
  intros E. rewrite handle_post_eq, E.
  now destruct (post_contacts v w) as [[e|r] w'].
Qed.

Lemma juan_submission :
  Agenda.handleFormSubmit false true juan_form
  = Agenda.Post (JSON.stringify (JObj juan_props)).
Proof. vm_compute. reflexivity. Qed.

Lemma juan_delivery :
  express_json (JSON.stringify (JObj juan_props)) = inr (JObj juan_props).
Proof. vm_compute. reflexivity. Qed.

End ServerFacts.

(** ** The validator *)

Module ValidatorFacts.

Lemma between_iff lo hi c :
  Text.between lo hi c = true <-> (lo <= Text.code c <= hi)%N.
Proof.
  unfold Text.between. now rewrite andb_true_iff, !N.leb_le.
Qed.

Lemma name_class_iff ch :
  Validator.name_class ch = true
  <-> listed_letter ch \/ Text.is_space ch = true
      \/ ch = "-"%char \/ ch = "'"%char.
Proof.
  unfold Validator.name_class, listed_letter.
  rewrite !orb_true_iff, !between_iff, !Ascii.eqb_eq, existsb_exists.
  split.
  - intros [[[[[H|H]|(x & Hin & Hx)]|H]|H]|H]; try tauto.
    apply Ascii.eqb_eq in Hx. subst x. tauto.
  - intros [[H|[H|H]]|[H|[H|H]]]; [tauto | tauto | | tauto | tauto | tauto].
    left. left. left. right. exists ch. split; [exact H | apply Ascii.eqb_refl].
Qed.

Lemma check_field_nil value valid missing invalid :
  valid EmptyString = false ->
  Validator.check_field value valid missing invalid = []
  <-> valid value = true.
Proof.
  intros Hempty. unfold Validator.check_field.
  destruct (String.eqb_spec value EmptyString) as [->|Hne].
  - rewrite Hempty. split; discriminate.
  - destruct (valid value); cbn; split; congruence.
Qed.

End ValidatorFacts.

(** ** The properties of the specification *)

Import JSONFacts ServerFacts ValidatorFacts.



(** C2. A create request in which nombre, apellido or telefono is missing
    or empty is answered 400 with a message, and the world after the call
    (the data file included) is the world before it.  The route is entered
    with what [express.json] parsed, which is never [null]. *)
Theorem create_rejects_missing_field (req_body : json) (w : world) (k : string) :
  req_body <> JNull ->
  In k ["nombre"; "apellido"; "telefono"] ->
  missing_or_empty req_body k = true ->
  post_contacts req_body w = (inr bad_request, w)
  /\ status bad_request = 400%Z
  /\ readContacts (snd (post_contacts req_body w)) = readContacts w.
Proof.
  intros Hnull Hk Hm.
  assert (Hinv : valid_request req_body = false).
  { assert (Hh : has req_body k = false).
    { unfold missing_or_empty in Hm. unfold has.
      destruct (JS.get req_body k) as [e|[[| | |s| | | |]|]]; try discriminate.
      - cbn. now rewrite Hm.
      - reflexivity. }
    unfold valid_request.
    destruct Hk as [<-|[<-|[<-|[]]]]; rewrite Hh;
      now rewrite ?andb_false_r. }
  rewrite (post_invalid req_body w Hnull Hinv). cbn [snd]. auto.
Qed.

Lemma create_rejects_missing_field_witness :
  no_nombre <> JNull
  /\ In "nombre" ["nombre"; "apellido"; "telefono"]
  /\ missing_or_empty no_nombre "nombre" = true
  /\ post_contacts no_nombre empty_world = (inr bad_request, empty_world)
  /\ status bad_request = 400%Z
  /\ readContacts (snd (post_contacts no_nombre empty_world))
     = readContacts empty_world.
Proof.
  split; [discriminate|].
  split; [now left|].
  split; [reflexivity|].
  apply (create_rejects_missing_field no_nombre empty_world "nombre");
    [discriminate | now left | reflexivity].
Defined.

(** C3. [readContacts] returns the empty sequence when the data file is
    absent and when its content fails to parse as JSON; every other read
    failure is thrown again with its code. *)
Theorem readContacts_recovers_or_propagates :
  (forall w, disk w = Absent -> readContacts w = (inr (JArr []), w))
  /\ (forall w data e,
        disk w = Regular data -> JSON.parse data = inl e ->
        readContacts w = (inr (JArr []), w))
  /\ (forall w code,
        disk w = Unreadable code -> code <> ENOENT ->
        readContacts w = (inl (SystemError code), w)).
Proof.
  repeat split.
  - intros w H. now rewrite readContacts_eq, H.
  - intros w data e H E. now rewrite readContacts_eq, H, E.
  - intros w code H Hne. rewrite readContacts_eq, H.
    destruct code; try reflexivity. congruence.
Qed.

Lemma readContacts_recovers_or_propagates_witness :
  readContacts empty_world = (inr (JArr []), empty_world)
  /\ readContacts garbled_world = (inr (JArr []), garbled_world)
  /\ readContacts denied_world = (inl (SystemError EACCES), denied_world).
Proof.
  destruct readContacts_recovers_or_propagates as (Habsent & Hbad & Hother).
  split; [|split].
  - apply Habsent. reflexivity.
  - apply (Hbad garbled_world "{ nombre: Juan" SyntaxError); reflexivity.
  - apply Hother; [reflexivity | discriminate].
Defined.






(** C6, on the code.  Two creates in strict sequence that read the same
    millisecond off the clock are both answered 201 and both persisted,
    and the two records carry the same id. *)
Theorem same_millisecond_same_id :
  let w1 := snd (post_contacts ana empty_world) in
  let w2 := snd (post_contacts luis (at_time 1700000000000 w1)) in
  fst (post_contacts ana empty_world) = inr created
  /\ fst (post_contacts luis (at_time 1700000000000 w1)) = inr created
  /\ exists c1 c2,
       fst (get_contacts w2) = inr (ok (JArr [c1; c2]))
       /\ JS.get c1 "nombre" = inr (Some (JStr "Ana"))
       /\ JS.get c2 "nombre" = inr (Some (JStr "Luis"))
       /\ JS.get c1 "id" = inr (Some (JStr "1700000000000"))
       /\ JS.get c2 "id" = inr (Some (JStr "1700000000000")).
Proof.
  cbv zeta. split; [reflexivity|]. split; [reflexivity|].
  eexists _, _. split; [vm_compute; reflexivity|].
  repeat split.
Qed.






(** C9, as the code has it.  [isValidPhone] holds exactly of the non-empty
    strings with 7 to 15 digits.  [isValidName] holds exactly of the
    non-empty strings of 2 to 50 characters, each of them a letter a-z or
    A-Z, one of the fourteen accented letters that [nameRegex] lists, a
    white-space character, a hyphen or an apostrophe.  [validateContact]
    accepts exactly when the three fields pass. *)
Theorem validator_field_rules (p n : string) (c : contactData) :
  (Validator.isValidPhone p = true
   <-> p <> EmptyString
       /\ 7 <= String.length (Text.strip_non_digits p) <= 15)
  /\ (Validator.isValidName n = true
      <-> n <> EmptyString
          /\ (forall ch, In ch (list_ascii_of_string n) ->
                listed_letter ch \/ Text.is_space ch = true
                \/ ch = "-"%char \/ ch = "'"%char)
          /\ 2 <= String.length n <= 50)
  /\ (Validator.isValid (Validator.validateContact c) = true
      <-> Validator.isValidName (nombre c) = true
          /\ Validator.isValidName (apellido c) = true
          /\ Validator.isValidPhone (telefono c) = true).
Proof.
  split; [|split].
  - unfold Validator.isValidPhone.
    destruct (String.eqb_spec p EmptyString) as [->|Hne].
    + split; [discriminate | now intros [[] _]].
    + rewrite andb_true_iff, !Nat.leb_le. tauto.
  - unfold Validator.isValidName, Validator.nameRegex_test.
    destruct (String.eqb_spec n EmptyString) as [->|Hne].
    + split; [discriminate | now intros [[] _]].
    + cbn [negb andb]. rewrite !andb_true_iff, !Nat.leb_le, TextFacts.all_spec.
      split.
      * intros [[Hall H2] H50]. repeat split; auto.
        intros ch Hin. apply name_class_iff. now apply Hall.
      * intros (_ & Hall & H2 & H50). repeat split; auto.
        intros ch Hin. apply name_class_iff. now apply Hall.
  - unfold Validator.validateContact. cbn [Validator.isValid].
    rewrite Nat.eqb_eq, List.length_zero_iff_nil.
    rewrite <- (check_field_nil (nombre c) Validator.isValidName
                  Validator.msg_nombre_obligatorio
                  Validator.msg_nombre_invalido eq_refl).
    rewrite <- (check_field_nil (apellido c) Validator.isValidName
                  Validator.msg_apellido_obligatorio
                  Validator.msg_apellido_invalido eq_refl).
    rewrite <- (check_field_nil (telefono c) Validator.isValidPhone
                  Validator.msg_telefono_obligatorio
                  Validator.msg_telefono_invalido eq_refl).
    split.
    + intros H. apply app_eq_nil in H. destruct H as [H1 H].
      apply app_eq_nil in H. tauto.
    + intros (-> & -> & ->). reflexivity.
Qed.

(** C9, as stated, fails: "Zoe" written with a diaeresis is three
    letters, one of them accented, yet [isValidName] refuses it, because
    the accented letter is not among those that [nameRegex] lists. *)
Lemma isValidName_refuses_unlisted_accent :
  ~ (Validator.isValidName zoe = true <-> spec_name_rule zoe = true).
Proof.
  intros [_ H]. specialize (H eq_refl). discriminate.
Qed.



(** ** Facts about the browser side *)

Module ClientFacts.
Import Text TextFacts.

(** *** [trim] and [sanitizeText] *)

Lemma drop_while_head p s :
  match drop_while p s with
  | EmptyString => True
  | String c _ => p c = false
  end.
Proof.
  induction s as [|c s IH]; simpl; [exact I|].
  destruct (p c) eqn:E; [exact IH | exact E].
Qed.

Lemma drop_while_fixed p c s : p c = false -> drop_while p (String c s) = String c s.
Proof. intros H. simpl. now rewrite H. Qed.

Lemma drop_end_idem p s : drop_end p (drop_end p s) = drop_end p s.
Proof.
  induction s as [|c s IH]; simpl; [reflexivity|].
  destruct (drop_end p s) as [|d t] eqn:E.
  - destruct (p c) eqn:Ec; simpl; [reflexivity | now rewrite Ec].
  - simpl in *. now rewrite IH.
Qed.

Lemma drop_end_head p c s : p c = false ->
  exists t, drop_end p (String c s) = String c t.
Proof.
  intros H. simpl. unfold str1. destruct (drop_end p s); [rewrite H|]; eauto.
Qed.

(** What [trim] returns has no white space at its ends. *)
Lemma trim_trimmed s :
  drop_while is_space (trim s) = trim s /\ drop_end is_space (trim s) = trim s.
Proof.
  unfold trim. split; [|apply drop_end_idem].
  pose proof (drop_while_head is_space s) as H.
  destruct (drop_while is_space s) as [|c t]; [reflexivity|].
  destruct (drop_end_head is_space c t H) as [u ->].
  now apply drop_while_fixed.
Qed.

Lemma trim_fixed s :
  drop_while is_space s = s -> drop_end is_space s = s -> trim s = s.
Proof. unfold trim. now intros -> ->. Qed.

Lemma trim_idem s : trim (trim s) = trim s.
Proof. destruct (trim_trimmed s). now apply trim_fixed. Qed.

(** A text that ends properly: it is empty or its last character is not
    white space. *)
Lemma drop_end_cons p c r :
  drop_end p (String c r) = String c r ->
  (r = EmptyString /\ p c = false) \/ (r <> EmptyString /\ drop_end p r = r).
Proof.
  simpl. destruct (drop_end p r) as [|d t] eqn:E.
  - destruct (p c) eqn:Ec; [discriminate|].
    intros [= <-]. now left.
  - intros [= <-]. right. split; [discriminate | reflexivity].
Qed.

Lemma collapse_single_spaced s :
  forall in_run,
    drop_end is_space s = s ->
    (s <> EmptyString \/ in_run = false) ->
    single_spaced in_run (collapse_from in_run s) = true.
Proof.
  induction s as [|c r IH]; intros in_run Hend Hne.
  - destruct Hne as [Hne| ->]; [congruence | reflexivity].
  - apply drop_end_cons in Hend. cbn [collapse_from].
    destruct (is_space c) eqn:Ec.
    + destruct Hend as [[_ Hc]|[Hr Hend]]; [congruence|].
      destruct in_run.
      * apply IH; auto.
      * cbn [single_spaced]. replace (is_space SP) with true by reflexivity.
        rewrite Ascii.eqb_refl. cbn. apply IH; auto.
    + cbn [single_spaced]. rewrite Ec.
      destruct Hend as [[-> _]|[Hr Hend]]; [reflexivity|].
      apply IH; auto.
Qed.

Lemma single_spaced_fixed s :
  forall after_space,
    single_spaced after_space s = true ->
    collapse_from false s = s /\ drop_end is_space s = s
    /\ (after_space = true -> drop_while is_space s = s).
Proof.
  induction s as [|c r IH]; intros b H; [repeat split|].
  cbn [single_spaced] in H. cbn [collapse_from].
  destruct (is_space c) eqn:Ec.
  - apply andb_true_iff in H. destruct H as [H Hr].
    apply andb_true_iff in H. destruct H as [Hc Hb].
    apply Ascii.eqb_eq in Hc. subst c.
    apply negb_true_iff in Hb. subst b.
    destruct (IH true Hr) as (Hcol & Hend & Hstart).
    specialize (Hstart eq_refl).
    destruct r as [|d r]; [discriminate|].
    assert (Hd : is_space d = false).
    { cbn [single_spaced] in Hr. destruct (is_space d); [|reflexivity].
      now rewrite andb_false_r in Hr. }
    repeat split.
    + f_equal. cbn [collapse_from] in *. rewrite Hd in *.
      exact Hcol.
    + cbn [drop_end] in *. destruct (drop_end is_space r) eqn:E.
      * rewrite Hd in *. now inversion Hend.
      * now inversion Hend.
    + discriminate.
  - destruct (IH false H) as (Hcol & Hend & _).
    repeat split.
    + now rewrite Hcol.
    + cbn [drop_end]. rewrite Hend.
      destruct r; [now rewrite Ec | reflexivity].
    + intros _. now apply drop_while_fixed.
Qed.

Lemma tidy_fixed s : tidy s = true -> Validator.sanitizeText s = s.
Proof.
  unfold tidy, Validator.sanitizeText. destruct s as [|c r]; [reflexivity|].
  intros H. destruct (single_spaced_fixed _ _ H) as (Hcol & Hend & Hstart).
  cbn [String.eqb]. unfold collapse_spaces.
  now rewrite (trim_fixed _ (Hstart eq_refl) Hend).
Qed.

Lemma single_spaced_head c r b :
  is_space c = false -> single_spaced b (String c r) = single_spaced false r.
Proof. intros H. cbn. now rewrite H. Qed.

Lemma sanitizeText_tidy s : tidy (Validator.sanitizeText s) = true.
Proof.
  unfold Validator.sanitizeText.
  destruct (String.eqb_spec s EmptyString) as [->|_]; [reflexivity|].
  destruct (trim_trimmed s) as [Hstart Hend].
  pose proof (collapse_single_spaced (trim s) false Hend (or_intror eq_refl)) as H.
  unfold collapse_spaces.
  destruct (trim s) as [|c r]; [reflexivity|].
  assert (Hc : is_space c = false).
  { simpl in Hstart. destruct (is_space c) eqn:E; [|reflexivity].
    pose proof (drop_while_head is_space r) as Hh. rewrite Hstart in Hh.
    congruence. }
  cbn [collapse_from] in *. rewrite Hc in *.
  unfold tidy. now rewrite single_spaced_head in * by assumption.
Qed.

(** *** Characters kept and lengths *)

Lemma keep_not_space_true c r :
  is_space c = false -> keep not_space (String c r) = String c (keep not_space r).
Proof. intros H. simpl. unfold not_space at 1. now rewrite H. Qed.

Lemma keep_not_space_false c r :
  is_space c = true -> keep not_space (String c r) = keep not_space r.
Proof. intros H. simpl. unfold not_space at 1. now rewrite H. Qed.

Lemma keep_drop_while s :
  keep not_space (drop_while is_space s) = keep not_space s.
Proof.
  induction s as [|c r IH]; [reflexivity|].
  cbn [drop_while]. destruct (is_space c) eqn:E; [|reflexivity].
  now rewrite keep_not_space_false.
Qed.

Lemma keep_drop_end s :
  keep not_space (drop_end is_space s) = keep not_space s.
Proof.
  induction s as [|c r IH]; [reflexivity|].
  cbn [drop_end]. destruct (is_space c) eqn:E.
  - rewrite (keep_not_space_false c r E), <- IH.
    destruct (drop_end is_space r); [reflexivity|].
    now rewrite keep_not_space_false.
  - rewrite (keep_not_space_true c r E), <- IH.
    destruct (drop_end is_space r); unfold str1;
      now rewrite keep_not_space_true.
Qed.

Lemma keep_collapse s : forall b,
  keep not_space (collapse_from b s) = keep not_space s.
Proof.
  induction s as [|c r IH]; intros b; [reflexivity|].
  cbn [collapse_from]. destruct (is_space c) eqn:E.
  - rewrite (keep_not_space_false c r E).
    destruct b; [apply IH|].
    rewrite keep_not_space_false by reflexivity. apply IH.
  - now rewrite !keep_not_space_true, IH.
Qed.

Lemma keep_idem p s : keep p (keep p s) = keep p s.
Proof.
  induction s as [|c r IH]; simpl; [reflexivity|].
  destruct (p c) eqn:E; simpl; [rewrite E|]; now rewrite IH.
Qed.

Lemma keep_length p s : String.length (keep p s) <= String.length s.
Proof.
  induction s as [|c r IH]; simpl; [lia|].
  destruct (p c); simpl; lia.
Qed.

Lemma keep_all_fixed p s : all p s = true -> keep p s = s.
Proof.
  induction s as [|c r IH]; simpl; [reflexivity|].
  rewrite andb_true_iff. intros [-> H]. now rewrite IH.
Qed.

Lemma collapse_length s : forall b,
  String.length (collapse_from b s) <= String.length s.
Proof.
  induction s as [|c r IH]; intros b; simpl; [lia|].
  pose proof (IH true). pose proof (IH false).
  destruct (is_space c); [destruct b|]; simpl; lia.
Qed.

Lemma collapse_all p s : forall b,
  p SP = true -> all p s = true -> all p (collapse_from b s) = true.
Proof.
  induction s as [|c r IH]; intros b Hsp; simpl; [reflexivity|].
  rewrite andb_true_iff. intros [Hc Hr].
  destruct (is_space c); [destruct b|]; simpl;
    rewrite ?Hsp, ?Hc; simpl; now apply IH.
Qed.

Lemma trimmed_two_kept s :
  drop_while is_space s = s -> drop_end is_space s = s ->
  2 <= String.length s -> 2 <= String.length (keep not_space s).
Proof.
  intros Hstart Hend Hlen.
  destruct s as [|c r]; [simpl in Hlen; lia|].
  assert (Hc : is_space c = false).
  { pose proof (drop_while_head is_space (String c r)) as H.
    now rewrite Hstart in H. }
  rewrite (keep_not_space_true c r Hc). cbn [String.length].
  assert (Hr : r <> EmptyString) by (destruct r; [simpl in Hlen; lia | discriminate]).
  apply drop_end_cons in Hend. destruct Hend as [[-> _]|[_ Hend]]; [congruence|].
  clear - Hr Hend. enough (1 <= String.length (keep not_space r)) by lia.
  induction r as [|d t IH]; [congruence|].
  apply drop_end_cons in Hend.
  destruct Hend as [[-> Hd]|[Ht Hend]].
  - rewrite (keep_not_space_true d _ Hd). simpl. lia.
  - specialize (IH Hend Ht). destruct (is_space d) eqn:Ed.
    + now rewrite keep_not_space_false.
    + rewrite keep_not_space_true by assumption. simpl. lia.
Qed.

(** Sanitizing a valid name that has no white space at its ends gives a
    valid name. *)
Lemma sanitize_valid_name n :
  trim n = n -> Validator.isValidName n = true ->
  Validator.isValidName (Validator.sanitizeText n) = true.
Proof.
  intros Htrim Hv. unfold Validator.isValidName in Hv.
  destruct (String.eqb_spec n EmptyString) as [->|Hne]; [discriminate|].
  unfold Validator.nameRegex_test in Hv.
  apply andb_true_iff in Hv. destruct Hv as [Hv H50].
  apply andb_true_iff in Hv. destruct Hv as [Hv H2].
  apply andb_true_iff in Hv. destruct Hv as [_ Hall].
  apply Nat.leb_le in H2, H50.
  destruct (trim_trimmed n) as [Hstart Hend]. rewrite Htrim in *.
  unfold Validator.sanitizeText.
  replace (n =? EmptyString) with false by (symmetry; now apply String.eqb_neq).
  rewrite Htrim. unfold collapse_spaces.
  pose proof (trimmed_two_kept n Hstart Hend H2) as Hk.
  rewrite <- (keep_collapse n false) in Hk.
  pose proof (keep_length not_space (collapse_from false n)) as Hl.
  pose proof (collapse_length n false) as Hu.
  unfold Validator.isValidName, Validator.nameRegex_test.
  destruct (String.eqb_spec (collapse_from false n) EmptyString) as [E|_].
  - rewrite E in Hk. simpl in Hk. lia.
  - cbn [negb andb]. rewrite collapse_all by (reflexivity || assumption).
    cbn [andb]. apply andb_true_iff. split; apply Nat.leb_le; lia.
Qed.

End ClientFacts.

Module FormatFacts.
Import Text TextFacts JSString ClientFacts.

Ltac ten_digits d Hall Hlen :=
  do 10 (destruct d as [|? d]; [discriminate Hlen|]);
  (destruct d; [|discriminate Hlen]);
  cbn [all] in Hall;
  repeat (apply andb_true_iff in Hall; destruct Hall as [? Hall]).

Ltac use_digits :=
  repeat match goal with
    | H : is_digit ?c = true |- context [is_digit ?c] => rewrite H
    end.

Lemma national_shape d :
  all is_digit d = true -> String.length d = 10 ->
  replace_groups [3; 3; 4] Utils.national d
  = "(" ++ substring 0 3 d ++ ") " ++ substring 3 3 d ++ "-" ++ substring 6 4 d
  /\ strip_non_digits (replace_groups [3; 3; 4] Utils.national d) = d.
Proof.
  intros Hall Hlen. ten_digits d Hall Hlen.
  unfold strip_non_digits.
  cbn [replace_groups match_groups take_digits]. use_digits.
  split; [reflexivity|].
  cbn. use_digits. reflexivity.
Qed.

Lemma international_shape d :
  all is_digit d = true -> String.length d = 11 ->
  replace_groups [1; 3; 3; 4] Utils.international d
  = "+" ++ substring 0 1 d ++ " (" ++ substring 1 3 d ++ ") "
        ++ substring 4 3 d ++ "-" ++ substring 7 4 d
  /\ strip_non_digits (replace_groups [1; 3; 3; 4] Utils.international d) = d.
Proof.
  intros Hall Hlen.
  destruct d as [|c0 d]; [discriminate Hlen|].
  cbn [all] in Hall. apply andb_true_iff in Hall. destruct Hall as [H0 Hall].
  assert (Hlen' : String.length d = 10) by (simpl in Hlen; lia).
  ten_digits d Hall Hlen'.
  unfold strip_non_digits.
  cbn [replace_groups match_groups take_digits]. use_digits.
  split; [reflexivity|].
  cbn. use_digits. reflexivity.
Qed.

Lemma strip_digits s : all is_digit (strip_non_digits s) = true.
Proof. apply keep_all. Qed.

Lemma strip_idem s : strip_non_digits (strip_non_digits s) = strip_non_digits s.
Proof. apply keep_idem. Qed.

End FormatFacts.

Module SearchFacts.
Import Text TextFacts JSString.

Lemma prefix_iff q : forall s,
  String.prefix q s = true <-> exists b, s = q ++ b.
Proof.
  induction q as [|c q IH]; intros s.
  - split; [intros _; now exists s | intros _; now destruct s].
  - destruct s as [|d s]; simpl.
    + split; [discriminate | intros [b H]; discriminate].
    + destruct (ascii_dec c d) as [<-|Hne].
      * rewrite IH. split; intros [b H]; exists b; [now rewrite H | now inversion H].
      * split; [discriminate | intros [b H]; inversion H; congruence].
Qed.

Lemma includes_iff s : forall q, includes s q = true <-> occurs s q.
Proof.
  induction s as [|c r IH]; intros q; cbn [includes];
    rewrite orb_true_iff, prefix_iff.
  - split.
    + intros [[b H]|H]; [|discriminate]. now exists EmptyString, b.
    + intros (a & b & H). left. destruct a; [|discriminate].
      now exists b.
  - rewrite IH. split.
    + intros [[b H]|(a & b & H)].
      * now exists EmptyString, b.
      * exists (String c a), b. simpl. now rewrite H.
    + intros (a & b & H). destruct a as [|d a].
      * left. now exists b.
      * right. simpl in H. inversion H. now exists a, b.
Qed.

Lemma name_matches_plain contact k query :
  plain_field contact k = true ->
  Client.name_matches contact k query
  = inr (includes (toLowerCase (text_of contact k)) (toLowerCase query)).
Proof.
  unfold plain_field, Client.name_matches, text_of.
  destruct (JS.get contact k) as [e|[[|b|[n|m j|neg]|s|[|u us]| | |]|]]; cbn;
    try discriminate; try reflexivity.
  - destruct b; [discriminate | reflexivity].
  - destruct (n =? 0)%Z; [reflexivity | discriminate].
  - destruct (m =? 0)%Z; [reflexivity | discriminate].
  - destruct (s =? EmptyString) eqn:E; [|reflexivity].
    apply String.eqb_eq in E. now subst.
Qed.

Lemma telefono_matches_plain contact query :
  plain_field contact "telefono" = true ->
  Client.telefono_matches contact query
  = inr (includes (text_of contact "telefono") query).
Proof.
  unfold plain_field, Client.telefono_matches, text_of.
  destruct (JS.get contact "telefono") as [e|[[|b|[n|m j|neg]|s|[|u us]| | |]|]];
    cbn; try discriminate; try reflexivity.
  - destruct b; [discriminate | reflexivity].
  - destruct (n =? 0)%Z; [reflexivity | discriminate].
  - destruct (m =? 0)%Z; [reflexivity | discriminate].
  - destruct (s =? EmptyString) eqn:E; [|reflexivity].
    apply String.eqb_eq in E. now subst.
Qed.

Lemma matches_plain contact query :
  plain contact = true -> Client.matches query contact = inr (hit query contact).
Proof.
  unfold plain, Client.matches, hit. intros H.
  apply andb_true_iff in H. destruct H as [H Ht].
  apply andb_true_iff in H. destruct H as [Hn Ha].
  rewrite (name_matches_plain _ _ _ Hn), (name_matches_plain _ _ _ Ha),
    (telefono_matches_plain _ _ Ht).
  unfold Client.orelse.
  destruct (includes (toLowerCase (text_of contact "nombre")) _);
    [reflexivity|].
  destruct (includes (toLowerCase (text_of contact "apellido")) _);
    reflexivity.
Qed.

Lemma filter_plain query contacts :
  forallb plain contacts = true ->
  Client.filter (Client.matches query) contacts
  = inr (List.filter (hit query) contacts).
Proof.
  induction contacts as [|c l IH]; [reflexivity|].
  cbn [forallb]. rewrite andb_true_iff. intros [Hc Hl].
  cbn [Client.filter List.filter].
  now rewrite (matches_plain _ _ Hc), (IH Hl).
Qed.

End SearchFacts.

Module RouteFacts.
Import Text TextFacts JSON JSONFacts ServerFacts.

(** The ways a create can end. *)
Lemma post_cases req_body w :
  post_contacts req_body w = (inr bad_request, w)
  \/ post_contacts req_body w = (inr create_failed, w)
  \/ (exists cs code written,
        valid_request req_body = true
        /\ readContacts w = (inr (JArr cs), w)
        /\ write_fault w = Some (FailsAfterOpen code written)
        /\ post_contacts req_body w
           = (inr create_failed,
              cut written (JArr (cs ++ [stamp (clock w) req_body])%list) w))
  \/ exists cs,
       valid_request req_body = true
       /\ readContacts w = (inr (JArr cs), w) /\ write_fault w = None
       /\ post_contacts req_body w
          = (inr created,
             saved (JArr (cs ++ [stamp (clock w) req_body])%list) w).
Proof.
  destruct (valid_request req_body) eqn:Hv.
  - rewrite (post_valid req_body w Hv).
    destruct (readContacts w) as [[e|v] w'] eqn:E;
      pose proof (readContacts_world _ _ _ E); subst w';
      [right; now left|].
    destruct v as [| | | | |cs| |]; try (right; now left).
    destruct (write_fault w) as [[code|code written]|] eqn:Hw.
    + right. now left.
    + right. right. left. exists cs, code, written. auto.
    + right. right. right. exists cs. auto.
  - destruct req_body; try (left; now rewrite post_invalid).
    right. now left.
Qed.

Lemma object_value_not_null ms : object_value ms <> JNull.
Proof. unfold object_value. now destruct (narrow_keys ms). Qed.

(** What [express.json] hands to the route is an object or an array: it
    is never [null]. *)
Lemma express_json_shape text v : express_json text = inr v -> v <> JNull.
Proof.
  unfold express_json.
  destruct (body_limit <? utf8_length text)%N; [discriminate|].
  destruct (text =? EmptyString); [intros [= <-]; discriminate|].
  destruct (skip_ws text) as [|c r] eqn:E; [discriminate|].
  destruct ((c =? "{")%char || (c =? "[")%char) eqn:Ec; [|discriminate].
  destruct (JSON.parse text) as [e|u] eqn:Ep; [discriminate|].
  intros [= <-]. unfold JSON.parse in Ep.
  destruct (parse_value (S (String.length text)) text) as [[u' rest]|] eqn:Ev;
    [|discriminate].
  assert (u' = u) by (destruct (skip_ws rest); now inversion Ep). subst u'.
  cbn [parse_value] in Ev. rewrite E in Ev.
  intros ->.
  destruct (c =? "[")%char eqn:Eb.
  - break_parser Ev; inversion Ev.
  - rewrite orb_false_r in Ec. rewrite Ec in Ev.
    break_parser Ev; inversion Ev.
    now apply (object_value_not_null l).
Qed.

(** A non-empty object sent as JSON, and below the limit, arrives as it
    was. *)
Lemma express_json_stringify m props :
  wf (JObj (m :: props)) = true ->
  (utf8_length (JSON.stringify (JObj (m :: props))) <= body_limit)%N ->
  express_json (JSON.stringify (JObj (m :: props))) = inr (JObj (m :: props)).
Proof.
  intros Hwf Hlen. unfold express_json.
  apply N.ltb_ge in Hlen. rewrite Hlen.
  rewrite (parse_stringify _ Hwf).
  unfold JSON.stringify. rewrite serialize_obj. reflexivity.
Qed.

Lemma got_not_failed v : ok v <> list_failed.
Proof. discriminate. Qed.

End RouteFacts.

Module FormFacts.
Import ValidatorFacts.

Lemma validateContact_valid c :
  Validator.isValid (Validator.validateContact c) = true ->
  Validator.isValidName (nombre c) = true
  /\ Validator.isValidName (apellido c) = true
  /\ Validator.isValidPhone (telefono c) = true.
Proof.
  unfold Validator.validateContact. cbn [Validator.isValid].
  rewrite Nat.eqb_eq, List.length_zero_iff_nil.
  rewrite <- (check_field_nil (nombre c) Validator.isValidName
                Validator.msg_nombre_obligatorio
                Validator.msg_nombre_invalido eq_refl).
  rewrite <- (check_field_nil (apellido c) Validator.isValidName
                Validator.msg_apellido_obligatorio
                Validator.msg_apellido_invalido eq_refl).
  rewrite <- (check_field_nil (telefono c) Validator.isValidPhone
                Validator.msg_telefono_obligatorio
                Validator.msg_telefono_invalido eq_refl).
  intros H. apply app_eq_nil in H. destruct H as [H1 H].
  apply app_eq_nil in H. tauto.
Qed.

(** What the form handler posts, when it posts. *)
Lemma handleFormSubmit_post isLoading has_form formData text :
  Agenda.handleFormSubmit isLoading has_form formData = Agenda.Post text ->
  isLoading = false /\ has_form = true
  /\ Validator.isValid
       (Validator.validateContact
          {| nombre := Agenda.field (Agenda.get_nombre formData);
             apellido := Agenda.field (Agenda.get_apellido formData);
             telefono := Agenda.field (Agenda.get_telefono formData) |}) = true
  /\ text = JSON.stringify (Agenda.to_json
       {| nombre := Validator.sanitizeText
                      (Agenda.field (Agenda.get_nombre formData));
          apellido := Validator.sanitizeText
                        (Agenda.field (Agenda.get_apellido formData));
          telefono := Text.strip_non_digits
                        (Agenda.field (Agenda.get_telefono formData)) |}).
Proof.
  unfold Agenda.handleFormSubmit.
  destruct isLoading; [discriminate|].
  destruct has_form; [|discriminate]. cbn [orb negb].
  destruct (Validator.isValid _) eqn:Hv; [|discriminate].
  cbn [negb]. intros [= <-]. auto.
Qed.

Lemma field_trimmed v : Text.trim (Agenda.field v) = Agenda.field v.
Proof. destruct v as [s|]; [apply ClientFacts.trim_idem | reflexivity]. Qed.

(** The text that the form posts stays far below the limit of
    [express.json], and arrives as the object it was made from. *)
Lemma utf8_length_le s :
  (utf8_length s <= 2 * N.of_nat (String.length s))%N.
Proof.
  induction s as [|c s IH]; [cbn; lia|].
  cbn [utf8_length String.length].
  destruct (Text.code c <? 128)%N; lia.
Qed.

Lemma quote_char_length c : String.length (JSON.quote_char c) <= 6.
Proof. JSONFacts.each_char c; vm_compute; lia. Qed.

Lemma quote_body_length s :
  String.length (JSON.quote_body s) <= 6 * String.length s.
Proof.
  induction s as [|c s IH]; [cbn; lia|].
  cbn [JSON.quote_body String.length]. rewrite TextFacts.length_app.
  pose proof (quote_char_length c). lia.
Qed.

Lemma form_text_shape n a p :
  JSON.stringify (Agenda.to_json {| nombre := n; apellido := a; telefono := p |})
  = "{" ++ JSON.QuoteJSONString "nombre" ++ ":" ++ JSON.QuoteJSONString n
      ++ "," ++ JSON.QuoteJSONString "apellido" ++ ":" ++ JSON.QuoteJSONString a
      ++ "," ++ JSON.QuoteJSONString "telefono" ++ ":" ++ JSON.QuoteJSONString p
      ++ "}".
Proof.
  unfold JSON.stringify, Agenda.to_json. cbn [nombre apellido telefono].
  rewrite JSONFacts.serialize_obj.
  cbn [map String.concat JSON.newline JSON.separator member fst snd
       JSON.colon JSON.serialize append].
  unfold member. cbn [fst snd JSON.colon JSON.serialize].
  repeat (rewrite !TextFacts.app_assoc; cbn [append]).
  reflexivity.
Qed.

Lemma form_text_length n a p :
  String.length n <= 50 -> String.length a <= 50 -> String.length p <= 15 ->
  String.length
    (JSON.stringify (Agenda.to_json {| nombre := n; apellido := a; telefono := p |}))
  <= 1000.
Proof.
  intros Hn Ha Hp. rewrite form_text_shape. unfold JSON.QuoteJSONString.
  let v := eval vm_compute in (JSON.quote_body "nombre") in
    change (JSON.quote_body "nombre") with v.
  let v := eval vm_compute in (JSON.quote_body "apellido") in
    change (JSON.quote_body "apellido") with v.
  let v := eval vm_compute in (JSON.quote_body "telefono") in
    change (JSON.quote_body "telefono") with v.
  repeat (cbn [String.length append Text.str1]; rewrite ?TextFacts.length_app).
  pose proof (quote_body_length n). pose proof (quote_body_length a).
  pose proof (quote_body_length p). lia.
Qed.

Lemma form_delivery n a p :
  String.length n <= 50 -> String.length a <= 50 -> String.length p <= 15 ->
  express_json
    (JSON.stringify (Agenda.to_json {| nombre := n; apellido := a; telefono := p |}))
  = inr (Agenda.to_json {| nombre := n; apellido := a; telefono := p |}).
Proof.
  intros Hn Ha Hp. apply RouteFacts.express_json_stringify; [reflexivity|].
  fold (Agenda.to_json {| nombre := n; apellido := a; telefono := p |}).
  pose proof (form_text_length n a p Hn Ha Hp) as Hlen.
  pose proof (utf8_length_le
    (JSON.stringify (Agenda.to_json {| nombre := n; apellido := a; telefono := p |})))
    as Hu.
  unfold body_limit. lia.
Qed.

Lemma isValidName_length s :
  Validator.isValidName s = true -> String.length s <= 50.
Proof.
  unfold Validator.isValidName.
  destruct (s =? EmptyString); [discriminate|].
  rewrite !andb_true_iff. intros [_ H]. now apply Nat.leb_le in H.
Qed.

End FormFacts.

(** ** Further properties of the code *)

Import ClientFacts FormatFacts SearchFacts RouteFacts FormFacts.

(** X1. The list route never changes the world and always answers: 500
    with its generic message exactly when the data file cannot be read for
    a reason other than its absence, and 200 with a value otherwise. *)
Theorem list_reads_only (w : world) :
  snd (get_contacts w) = w
  /\ (fst (get_contacts w) = inr list_failed
      <-> exists code, disk w = Unreadable code /\ code <> ENOENT)
  /\ (fst (get_contacts w) = inr list_failed
      \/ exists v, fst (get_contacts w) = inr (ok v)).
Proof.
  split; [apply get_contacts_world|].
  rewrite get_contacts_eq, readContacts_eq.
  assert (Hok : forall v,
    (@inr exn response (ok v) = inr list_failed
     <-> exists code, disk w = Unreadable code /\ code <> ENOENT)
    \/ exists code, disk w = Unreadable code /\ code <> ENOENT).
  { intros v. destruct (disk w) as [|data|code] eqn:Hd.
    - left. split; [discriminate | intros (c & H & _); discriminate].
    - left. split; [discriminate | intros (c & H & _); discriminate].
    - destruct code;
        try (right; eexists; split; [reflexivity | discriminate]).
      left. split; [discriminate | intros (c & H & Hc)].
      inversion H. congruence. }
  destruct (disk w) as [|data|code] eqn:Hd; cbn [fst].
  - destruct (Hok (JArr [])) as [H|(c & H & _)]; [|discriminate].
    split; [exact H | right; eexists; reflexivity].
  - destruct (JSON.parse data) as [e|v].
    + destruct (Hok (JArr [])) as [H|(c & H & _)]; [|discriminate].
      split; [exact H | right; eexists; reflexivity].
    + destruct (Hok v) as [H|(c & H & _)]; [|discriminate].
      split; [exact H | right; eexists; reflexivity].
  - destruct code; cbn;
      try (split; [|now left];
           split; [intros _; eexists; split; [reflexivity | discriminate]
                  | reflexivity]).
    destruct (Hok (JArr [])) as [H|(c & H & Hc)].
    + split; [exact H | right; eexists; reflexivity].
    + inversion H. congruence.
Qed.

(** X2. The create route always answers, with 201, 400 or 500, and never
    touches the clock or the write condition.  With 400 the world is as
    it was.  With 201 the data file holds the sequence that was read
    followed by the request with its id.  With 500 the world is as it
    was, unless the write failed after the file was opened: then the file
    is left with the part of that text that was written. *)
Theorem create_answers_and_writes_on_success (req_body : json) (w : world) :
  exists r,
    fst (post_contacts req_body w) = inr r
    /\ (status r = 201 \/ status r = 400 \/ status r = 500)%Z
    /\ (status r = 400%Z -> snd (post_contacts req_body w) = w)
    /\ (status r = 201%Z ->
        exists cs,
          fst (readContacts w) = inr (JArr cs)
          /\ snd (post_contacts req_body w)
             = saved (JArr (cs ++ [stamp (clock w) req_body])%list) w)
    /\ (status r = 500%Z ->
        snd (post_contacts req_body w) = w
        \/ exists cs code written,
             fst (readContacts w) = inr (JArr cs)
             /\ write_fault w = Some (FailsAfterOpen code written)
             /\ snd (post_contacts req_body w)
                = cut written
                    (JArr (cs ++ [stamp (clock w) req_body])%list) w)
    /\ clock (snd (post_contacts req_body w)) = clock w
    /\ write_fault (snd (post_contacts req_body w)) = write_fault w.
Proof.
  destruct (post_cases req_body w)
    as [->|[->|[(cs & code & written & Hv & Hr & Hw & ->)
               |(cs & Hv & Hr & Hw & ->)]]].
  - exists bad_request. cbn. repeat split; auto; discriminate.
  - exists create_failed. cbn. repeat split; auto; discriminate.
  - exists create_failed. cbn [fst snd]. rewrite Hr.
    split; [reflexivity|]. split; [cbn; auto|].
    split; [discriminate|]. split; [discriminate|].
    split; [|split; reflexivity].
    intros _. right. now exists cs, code, written.
  - exists created. cbn [fst snd]. rewrite Hr.
    split; [reflexivity|]. split; [cbn; auto|].
    split; [discriminate|]. split; [|split; [discriminate | split; reflexivity]].
    intros _. now exists cs.
Qed.

(** X3. A valid create is answered 201 exactly when the store holds a
    sequence and the write meets no failure; otherwise it is answered 500,
    and the world is as it was unless the write stopped half way. *)
Theorem valid_create_succeeds_iff (req_body : json) (w : world) :
  valid_request req_body = true ->
  (fst (post_contacts req_body w) = inr created
   <-> (exists cs, fst (readContacts w) = inr (JArr cs))
       /\ write_fault w = None)
  /\ (fst (post_contacts req_body w) <> inr created ->
      fst (post_contacts req_body w) = inr create_failed
      /\ (uncut w -> snd (post_contacts req_body w) = w)).
Proof.
  intros Hv. rewrite (post_valid req_body w Hv).
  destruct (readContacts w) as [[e|v] w'] eqn:E;
    pose proof (readContacts_world _ _ _ E); subst w'; cbn [fst].
  - split; [|auto].
    split; [discriminate | intros [[cs H] _]; discriminate].
  - destruct v as [| | | | |cs| |];
      try (split; [|auto];
           split; [discriminate | intros [[cs H] _]; discriminate]).
    destruct (write_fault w) as [[code|code written]|] eqn:Hw; cbn [fst snd].
    + split; [|auto].
      split; [discriminate | intros [_ H]; discriminate].
    + split.
      * split; [discriminate | intros [_ H]; discriminate].
      * intros _. split; [reflexivity|].
        intros Hcut. now apply Hcut in Hw.
    + split; [|congruence]. split; [eauto | reflexivity].
Qed.

Lemma valid_create_succeeds_iff_witness :
  valid_request ana = true
  /\ (fst (post_contacts ana denied_world) = inr created
      <-> (exists cs, fst (readContacts denied_world) = inr (JArr cs))
          /\ write_fault denied_world = None)
  /\ (fst (post_contacts ana denied_world) <> inr created ->
      fst (post_contacts ana denied_world) = inr create_failed
      /\ (uncut denied_world -> snd (post_contacts ana denied_world) = denied_world)).
Proof.
  split; [reflexivity|].
  apply (valid_create_succeeds_iff ana denied_world).
  reflexivity.
Defined.



(** X5. When the data file holds JSON that is not an array, the list
    route answers 200 with that value, and every valid create is answered
    500 and leaves the file as it is. *)
Theorem non_array_store_blocks_create
    (o : list (string * json)) (w : world) (data : string) (v : json) :
  valid_request (JObj o) = true ->
  disk w = Regular data ->
  JSON.parse data = inr v ->
  (forall items, v <> JArr items) ->
  fst (get_contacts w) = inr (ok v)
  /\ post_contacts (JObj o) w = (inr create_failed, w).
Proof.
  intros Hv Hd Hp Hna.
  assert (Hr : readContacts w = (inr v, w))
    by now rewrite readContacts_eq, Hd, Hp.
  split.
  - now rewrite get_contacts_eq, Hr.
  - rewrite (post_valid (JObj o) w Hv), Hr.
    destruct v; try reflexivity. now destruct (Hna items).
Qed.

Lemma non_array_store_blocks_create_witness :
  valid_request ana = true
  /\ disk object_world = Regular "{}"
  /\ JSON.parse "{}" = inr (JObj [])
  /\ (forall items, JObj [] <> JArr items)
  /\ fst (get_contacts object_world) = inr (ok (JObj []))
  /\ post_contacts ana object_world = (inr create_failed, object_world).
Proof.
  split; [reflexivity|]. split; [reflexivity|]. split; [reflexivity|].
  split; [discriminate|].
  apply (non_array_store_blocks_create
           [ ("nombre", JStr "Ana"); ("apellido", JStr "Diaz");
             ("telefono", JStr "8095550001") ] object_world "{}" (JObj []));
    (reflexivity || discriminate).
Defined.





(** X8. On a store that holds a sequence and can be written, no request
    text makes the route fail: whatever is posted is answered 201 by the
    route, or 400 by the route, or refused by [express.json] with 400 or
    413, and in the last three cases the world is left as it was.  A text
    above the limit of 100 kilobytes is refused with 413. *)
Theorem healthy_store_never_fails (text : string) (w : world) (cs : list json) :
  fst (readContacts w) = inr (JArr cs) ->
  write_fault w = None ->
  (fst (handle_post text w) = inr (Routed created)
   \/ handle_post text w = (inr (Routed bad_request), w)
   \/ handle_post text w = (inr (Refused 400), w)
   \/ handle_post text w = (inr (Refused 413), w))
  /\ ((body_limit < utf8_length text)%N ->
      handle_post text w = (inr (Refused 413), w)).
Proof.
  intros Hr Hw. rewrite handle_post_eq. split.
  - destruct (express_json text) as [st|req_body] eqn:E.
    + right. right.
      assert (Hst : st = 400%Z \/ st = 413%Z).
      { revert E. unfold express_json.
        repeat match goal with
          | |- context [if ?c then _ else _] => destruct c
          | |- context [match ?x with _ => _ end] => destruct x
          end; intros [= <-]; auto. }
      destruct Hst as [->| ->]; auto.
    + apply express_json_shape in E.
      destruct (valid_request req_body) eqn:Hv.
      * left. rewrite (post_valid req_body w Hv).
        destruct (readContacts w) as [[e|v] w'] eqn:Er; cbn in Hr;
          [discriminate|].
        inversion Hr; subst v. now rewrite Hw.
      * right. left. now rewrite (post_invalid req_body w E Hv).
  - intros Hbig. unfold express_json.
    apply N.ltb_lt in Hbig. now rewrite Hbig.
Qed.

Lemma healthy_store_never_fails_witness :
  fst (readContacts empty_world) = inr (JArr [])
  /\ write_fault empty_world = None
  /\ (fst (handle_post "[null, 5]" empty_world) = inr (Routed created)
      \/ handle_post "[null, 5]" empty_world
         = (inr (Routed bad_request), empty_world)
      \/ handle_post "[null, 5]" empty_world = (inr (Refused 400), empty_world)
      \/ handle_post "[null, 5]" empty_world = (inr (Refused 413), empty_world))
  /\ ((body_limit < utf8_length "[null, 5]")%N ->
      handle_post "[null, 5]" empty_world = (inr (Refused 413), empty_world)).
Proof.
  split; [reflexivity|]. split; [reflexivity|].
  apply (healthy_store_never_fails "[null, 5]" empty_world []); reflexivity.
Defined.

(** X9. What [sanitizeText] returns is tidy: no white space at either end
    and single spaces only between the words.  Tidy text is returned as it
    is, so sanitizing twice is sanitizing once. *)
Theorem sanitizeText_normalizes (s : string) :
  tidy (Validator.sanitizeText s) = true
  /\ (tidy s = true -> Validator.sanitizeText s = s)
  /\ Validator.sanitizeText (Validator.sanitizeText s)
     = Validator.sanitizeText s.
Proof.
  split; [apply sanitizeText_tidy|]. split; [apply tidy_fixed|].
  apply tidy_fixed, sanitizeText_tidy.
Qed.

(** X10. [sanitizeText] only removes or replaces white space: the other
    characters of the text are kept, in their order, and the text does not
    get longer. *)
Theorem sanitizeText_keeps_the_words (s : string) :
  Text.keep not_space (Validator.sanitizeText s) = Text.keep not_space s
  /\ String.length (Validator.sanitizeText s) <= String.length s.
Proof.
  unfold Validator.sanitizeText.
  destruct (String.eqb_spec s EmptyString) as [->|_]; [split; reflexivity|].
  unfold Text.collapse_spaces, Text.trim. split.
  - now rewrite keep_collapse, keep_drop_end, keep_drop_while.
  - pose proof (collapse_length
                  (Text.drop_end Text.is_space (Text.drop_while Text.is_space s))
                  false) as H1.
    assert (H2 : forall p t, String.length (Text.drop_while p t) <= String.length t).
    { intros p t. induction t as [|c r IH]; simpl; [lia|].
      destruct (p c); simpl; lia. }
    assert (H3 : forall p t, String.length (Text.drop_end p t) <= String.length t).
    { intros p t. induction t as [|c r IH]; simpl; [lia|].
      destruct (Text.drop_end p r); [destruct (p c)|]; simpl in *; lia. }
    specialize (H2 Text.is_space s).
    specialize (H3 Text.is_space (Text.drop_while Text.is_space s)). lia.
Qed.

(** X11. Whether a phone is valid depends on its digits only: the phone
    stripped of everything but its digits, which is what the form posts,
    is valid exactly when the phone as typed is; and stripping twice is
    stripping once. *)
Theorem isValidPhone_of_digits (p : string) :
  Validator.isValidPhone (Text.strip_non_digits p) = Validator.isValidPhone p
  /\ Text.strip_non_digits (Text.strip_non_digits p) = Text.strip_non_digits p.
Proof.
  split; [|apply strip_idem].
  unfold Validator.isValidPhone. rewrite strip_idem.
  destruct (String.eqb_spec p EmptyString) as [->|Hp]; [reflexivity|].
  destruct (String.eqb_spec (Text.strip_non_digits p) EmptyString) as [E|_];
    [|reflexivity].
  now rewrite E.
Qed.

(** X12. The form handler posts only when no request is under way, the
    form exists and the three fields pass the validator; and what it posts
    is a contact whose nombre and apellido are valid and tidy and whose
    telefono is made of 7 to 15 digits and nothing else. *)
Theorem form_posts_only_valid_contacts
    (isLoading has_form : bool) (formData : Agenda.FormData) (text : string) :
  Agenda.handleFormSubmit isLoading has_form formData = Agenda.Post text ->
  isLoading = false /\ has_form = true
  /\ exists c,
       text = JSON.stringify (Agenda.to_json c)
       /\ Validator.isValidName (nombre c) = true
       /\ Validator.isValidName (apellido c) = true
       /\ tidy (nombre c) = true /\ tidy (apellido c) = true
       /\ Text.all Text.is_digit (telefono c) = true
       /\ 7 <= String.length (telefono c) <= 15.
Proof.
  intros H. apply handleFormSubmit_post in H.
  destruct H as (-> & -> & Hv & ->).
  split; [reflexivity|]. split; [reflexivity|].
  apply validateContact_valid in Hv.
  destruct Hv as (Hn & Ha & Hp). cbn [nombre apellido telefono] in *.
  eexists {| nombre := _; apellido := _; telefono := _ |}.
  split; [reflexivity|]. cbn [nombre apellido telefono].
  split; [apply sanitize_valid_name; [apply field_trimmed | exact Hn]|].
  split; [apply sanitize_valid_name; [apply field_trimmed | exact Ha]|].
  split; [apply sanitizeText_tidy|]. split; [apply sanitizeText_tidy|].
  split; [apply strip_digits|].
  unfold Validator.isValidPhone in Hp.
  destruct (Agenda.field (Agenda.get_telefono formData) =? EmptyString);
    [discriminate|].
  apply andb_true_iff in Hp. destruct Hp as [H7 H15].
  apply Nat.leb_le in H7, H15. lia.
Qed.

Lemma form_posts_only_valid_contacts_witness :
  exists text,
    Agenda.handleFormSubmit false true maria_form = Agenda.Post text
    /\ false = false /\ true = true
    /\ exists c,
         text = JSON.stringify (Agenda.to_json c)
         /\ Validator.isValidName (nombre c) = true
         /\ Validator.isValidName (apellido c) = true
         /\ tidy (nombre c) = true /\ tidy (apellido c) = true
         /\ Text.all Text.is_digit (telefono c) = true
         /\ 7 <= String.length (telefono c) <= 15.
Proof.
  eexists. split; [vm_compute; reflexivity|].
  eapply (form_posts_only_valid_contacts false true maria_form).
  vm_compute. reflexivity.
Defined.



(** X14. How [formatPhone] shows a phone: with exactly ten digits, however
    they are punctuated, as (ddd) ddd-dddd; with eleven digits of which
    the first is a 1, as +1 (ddd) ddd-dddd; in every other case as it was
    given. *)
Theorem formatPhone_shapes (phone : string) :
  let d := Text.strip_non_digits phone in
  (String.length d = 10 ->
   Utils.formatPhone phone
   = "(" ++ substring 0 3 d ++ ") " ++ substring 3 3 d ++ "-" ++ substring 6 4 d)
  /\ (String.length d = 11 -> JSString.startsWith d "1" = true ->
      Utils.formatPhone phone
      = "+1 (" ++ substring 1 3 d ++ ") " ++ substring 4 3 d
          ++ "-" ++ substring 7 4 d)
  /\ (String.length d <> 10 ->
      (String.length d = 11 -> JSString.startsWith d "1" = false) ->
      Utils.formatPhone phone = phone).
Proof.
  cbv zeta. unfold Utils.formatPhone.
  destruct (String.eqb_spec phone EmptyString) as [->|Hne].
  - split; [intros H; discriminate H|].
    split; [intros H; discriminate H | reflexivity].
  - pose proof (strip_digits phone) as Hall.
    split; [|split].
    + intros H10. rewrite H10. cbn [Nat.eqb].
      apply (national_shape _ Hall H10).
    + intros H11 H1. rewrite H11, H1. cbn [Nat.eqb andb].
      rewrite (proj1 (international_shape _ Hall H11)).
      apply prefix_iff in H1. destruct H1 as [r ->].
      destruct r; reflexivity.
    + intros Hn10 Hn11.
      destruct (Nat.eqb_spec (String.length (Text.strip_non_digits phone)) 10);
        [contradiction|].
      destruct (Nat.eqb_spec (String.length (Text.strip_non_digits phone)) 11)
        as [H11|_]; [|reflexivity].
      now rewrite (Hn11 H11).
Qed.

Lemma formatPhone_shapes_witness :
  Utils.formatPhone "809.123.4567" = "(809) 123-4567"
  /\ Utils.formatPhone "1-809-123-4567" = "+1 (809) 123-4567"
  /\ Utils.formatPhone "555 0199" = "555 0199".
Proof.
  split; [|split].
  - apply (proj1 (formatPhone_shapes "809.123.4567")). reflexivity.
  - apply (proj1 (proj2 (formatPhone_shapes "1-809-123-4567"))); reflexivity.
  - apply (proj2 (proj2 (formatPhone_shapes "555 0199")));
      [discriminate | intros H; discriminate H].
Defined.

(** X15. [formatPhone] never changes the digits of a phone, and
    formatting what it returned changes nothing. *)
Theorem formatPhone_keeps_the_digits (phone : string) :
  Text.strip_non_digits (Utils.formatPhone phone) = Text.strip_non_digits phone
  /\ Utils.formatPhone (Utils.formatPhone phone) = Utils.formatPhone phone.
Proof.
  unfold Utils.formatPhone at 1 3 4.
  destruct (String.eqb_spec phone EmptyString) as [->|Hne];
    [split; reflexivity|].
  pose proof (strip_digits phone) as Hall.
  set (d := Text.strip_non_digits phone) in *.
  destruct (Nat.eqb_spec (String.length d) 10) as [H10|Hn10].
  - destruct (national_shape d Hall H10) as [Hshape Hstrip].
    split; [exact Hstrip|].
    unfold Utils.formatPhone. rewrite Hstrip.
    replace (String.length d =? 10)%nat with true
      by (symmetry; now apply Nat.eqb_eq).
    now rewrite Hshape.
  - destruct (Nat.eqb_spec (String.length d) 11) as [H11|Hn11]; cbn [andb].
    + destruct (JSString.startsWith d "1") eqn:H1.
      * destruct (international_shape d Hall H11) as [Hshape Hstrip].
        split; [exact Hstrip|].
        unfold Utils.formatPhone. rewrite Hstrip, H1.
        replace (String.length d =? 10)%nat with false
          by (symmetry; now apply Nat.eqb_neq).
        replace (String.length d =? 11)%nat with true
          by (symmetry; now apply Nat.eqb_eq).
        now rewrite Hshape.
      * split; [reflexivity|].
        unfold Utils.formatPhone. fold d.
        replace (phone =? EmptyString) with false
          by (symmetry; now apply String.eqb_neq).
        replace (String.length d =? 10)%nat with false
          by (symmetry; now apply Nat.eqb_neq).
        now rewrite H1, andb_false_r.
    + split; [reflexivity|].
      unfold Utils.formatPhone. fold d.
      replace (phone =? EmptyString) with false
        by (symmetry; now apply String.eqb_neq).
      replace (String.length d =? 10)%nat with false
        by (symmetry; now apply Nat.eqb_neq).
      replace (String.length d =? 11)%nat with false
        by (symmetry; now apply Nat.eqb_neq).
      reflexivity.
Qed.



(** X17. [addContact] tells of a success only for an answer whose status
    is 200 to 299 and whose text does not contain "error" in any letter
    case; a rejected fetch and every other answer end in an error
    message.  Answered by the create route of the backend, it tells of a
    success exactly when the route answered 201. *)
Theorem addContact_success_iff_created
    (c : contactData) (f : Client.fetched)
    (req_body : json) (w : world) (statusText : string) :
  ((exists m, Client.addContact c f = Client.ShowSuccess m)
   <-> exists status st text,
         f = Client.Resolved status st text
         /\ (200 <= status <= 299)%Z
         /\ ~ occurs (JSString.toLowerCase text) "error")
  /\ exists r,
       fst (post_contacts req_body w) = inr r
       /\ ((exists m, Client.addContact c (on_the_wire statusText r)
                      = Client.ShowSuccess m)
           <-> r = created).
Proof.
  split.
  - unfold Client.addContact, Client.add_failed. split.
    + intros [m H]. destruct f as [|status st text]; [discriminate|].
      exists status, st, text. split; [reflexivity|].
      destruct (Client.response_ok status) eqn:Hok; cbn [negb] in H;
        [|destruct (_ || _); discriminate].
      unfold Client.response_ok in Hok. apply andb_true_iff in Hok.
      rewrite !Z.leb_le in Hok. split; [exact Hok|].
      rewrite <- includes_iff.
      destruct (JSString.includes (JSString.toLowerCase text) "error");
        [destruct (_ || _); discriminate | discriminate].
    + intros (status & st & text & -> & Hok & Hno).
      replace (Client.response_ok status) with true
        by (symmetry; unfold Client.response_ok;
            apply andb_true_iff; now rewrite !Z.leb_le).
      cbn [negb]. rewrite <- includes_iff in Hno.
      destruct (JSString.includes (JSString.toLowerCase text) "error");
        [congruence | eauto].
  - destruct (post_cases req_body w)
      as [->|[->|[(cs & code & written & _ & _ & _ & ->)
                 |(cs & _ & _ & _ & ->)]]]; cbn [fst].
    + exists bad_request. split; [reflexivity|].
      split; [|discriminate]. intros [m H]. cbn in H.
      unfold Client.add_failed in H. destruct (_ || _); discriminate.
    + exists create_failed. split; [reflexivity|].
      split; [|discriminate]. intros [m H]. cbn in H.
      unfold Client.add_failed in H. destruct (_ || _); discriminate.
    + exists create_failed. split; [reflexivity|].
      split; [|discriminate]. intros [m H]. cbn in H.
      unfold Client.add_failed in H. destruct (_ || _); discriminate.
    + exists created. split; [reflexivity|].
      split; [reflexivity|]. intros _. eexists. reflexivity.
Qed.




